(** * node-lame: the Decoder and Encoder transform stages

    A shallow embedding of [lib/decoder.js] and [lib/encoder.js].  Both
    classes drive a native codec through the [binding] object; the
    binding is not part of the JavaScript sources, so its functions and
    constants are the fields of a class the stage is parametrised by, and
    the state the native library keeps behind a handle is threaded
    explicitly.

    Every binding call completes through a callback.  A stage never has
    two calls in flight, so a method is modelled by the sequential
    composition of its callbacks; what the outside can observe (binding
    calls, pushed buffers, emitted events) is recorded in order as a list
    of events, and the way the method ends is its [completion]. *)

From Stdlib Require Import ZArith QArith Qround Lia.
From stdpp Require Import base option list strings gmap pretty.

Local Open Scope Z_scope.

(** ** JavaScript values, numbers and buffers *)

(** The values an option of [EncoderOptions] can hold ([index.d.ts]
    declares booleans and numbers), with [undefined] for an absent
    property.  Option numbers are integers. *)
Inductive js_value :=
  | JUndefined
  | JNull
  | JBool (b : bool)
  | JNum (z : Z).

(** A number computed by the stage: [None] is NaN, [Some q] the exact
    value.  Every operation used below is exact on doubles for sizes a
    buffer can have, so rationals lose nothing; values are kept reduced
    so that equal numbers are equal terms. *)
Definition num := option Q.

Definition of_Z (z : Z) : num := Some (inject_Z z).
Definition of_nat (n : nat) : num := of_Z (Z.of_nat n).

Definition ToNumber (v : js_value) : num :=
  match v with
  | JUndefined => None
  | JNull => of_Z 0
  | JBool b => of_Z (if b then 1 else 0)
  | JNum z => of_Z z
  end.

Definition ToBoolean (v : js_value) : bool :=
  match v with
  | JUndefined | JNull => false
  | JBool b => b
  | JNum z => negb (z =? 0)
  end.

(** [v == n] for a number [n]: [undefined] and [null] equal no number, a
    boolean is converted first. *)
Definition loose_eq_number (v : js_value) (n : num) : bool :=
  match v, n with
  | JBool b, Some q => Qeq_bool (inject_Z (if b then 1 else 0)) q
  | JNum z, Some q => Qeq_bool (inject_Z z) q
  | _, _ => false
  end.

(** [v !== n] for an integer literal [n]. *)
Definition strict_ne_int (v : js_value) (n : Z) : bool :=
  match v with
  | JNum z => negb (z =? n)
  | _ => true
  end.

(** Round toward zero, as [ToIntegerOrInfinity] does. *)
Definition Qtrunc (q : Q) : Z :=
  if Qle_bool 0 q then Qfloor q else Qceiling q.

Definition ToInteger (n : num) : Z :=
  match n with
  | None => 0
  | Some q => Qtrunc q
  end.

Definition js_add (a b : num) : num :=
  x ← a; y ← b; Some (Qred (x + y)).

Definition js_sub (a b : num) : num :=
  x ← a; y ← b; Some (Qred (x - y)).

Definition js_mul (a b : num) : num :=
  x ← a; y ← b; Some (Qred (x * y)).

(** [a / b].  A zero divisor gives an infinity or NaN in JavaScript; no
    division below has one (the literal 8, and [blockAlign] behind the
    alignment assertion), and the model answers NaN there. *)
Definition js_div (a b : num) : num :=
  x ← a; y ← b;
  if Qeq_bool y 0 then None else Some (Qred (x / y)).

(** [a % b]: NaN for a zero divisor, otherwise the remainder of the
    division truncated toward zero (the sign follows the dividend). *)
Definition js_rem (a b : num) : num :=
  x ← a; y ← b;
  if Qeq_bool y 0 then None
  else Some (Qred (x - y * inject_Z (Qtrunc (x / y)))).

(** [a > 0] and [a === 0]; both are false for NaN. *)
Definition js_gt0 (a : num) : bool :=
  match a with
  | Some q => negb (Qle_bool q 0)
  | None => false
  end.

Definition js_is0 (a : num) : bool :=
  match a with
  | Some q => Qeq_bool q 0
  | None => false
  end.

(** [ToInt32] and the bitwise [&] of two integers. *)
Definition ToInt32 (z : Z) : Z := (z + 2 ^ 31) mod 2 ^ 32 - 2 ^ 31.

Definition js_bitand (a b : Z) : Z := Z.land (ToInt32 a) (ToInt32 b).

Definition bool_to_Z (b : bool) : Z := if b then 1 else 0.

(** A [Buffer] is its bytes. *)
Abbreviation Buffer := (list Byte.byte).

(** [buf.slice(start, end)]: indices are truncated to integers, negative
    ones count from the end, and both are clamped to the buffer. *)
Definition clamp_index (len i : Z) : Z :=
  if i <? 0 then Z.max (len + i) 0 else Z.min i len.

Definition Buffer_slice (buf : Buffer) (start stop : Z) : Buffer :=
  let len := Z.of_nat (length buf) in
  let s := clamp_index len start in
  let e := clamp_index len stop in
  take (Z.to_nat (e - s)) (drop (Z.to_nat s) buf).

(** [buf.slice(start)] *)
Definition Buffer_slice_from (buf : Buffer) (start : Z) : Buffer :=
  Buffer_slice buf start (Z.of_nat (length buf)).

(** [Buffer.alloc(size)]: a zero-filled buffer.  The size is validated to
    be a number that is not negative (a [RangeError] otherwise, [None]
    here) and, [Buffer] being a [Uint8Array], converted to an index by
    dropping its fraction.  The platform's upper limit on buffer sizes is
    not modelled. *)
Definition Buffer_alloc (size : num) : option Buffer :=
  match size with
  | None => None
  | Some q =>
      if Qle_bool 0 q then Some (replicate (Z.to_nat (Qfloor q)) Byte.x00)
      else None
  end.

(** The native side writes [data] at the start of the buffer it was
    handed; the buffer keeps its length. *)
Definition written (out data : Buffer) : Buffer :=
  take (length out) (data ++ drop (length data) out).

(** ** Errors and completion *)

(** An [Error] object: its message and, where the code sets one, its
    [code] property. *)
Record js_error := Error {
  message : string;
  code : option Z
}.

Inductive exn :=
  | AssertionError
  | RangeError
  | ReferenceError (identifier : string).

(** How a stream method ends: [done(err)] was called, an exception
    escaped, or the method still waits for a callback. *)
Inductive completion :=
  | Completed (err : option js_error)
  | Thrown (x : exn)
  | Pending.

(** ** The Decoder stage ([lib/decoder.js]) *)

Module Decoder.

(** What [mpg123_read] hands to its callback, and the bytes it wrote to
    the output buffer. *)
Record read_reply := ReadReply {
  rd_ret : Z;
  rd_bytes : Z;
  rd_meta : Z;
  rd_data : Buffer
}.

(** The ID3 object of [mpg123_id3]; only an ID3v1 tag has a [tag] field. *)
Record id3_object := Id3 {
  tag : option string;
  title : string
}.

(** The descriptor [mpg123_getformat] returns. *)
Record pcm_format := Format {
  raw_encoding : Z;
  sampleRate : Z;
  channels : Z
}.

(** The part of [binding] the decoder uses; [M] is the state of the
    mpg123 library behind the handle [this.mh]. *)
Class Mpg123 (M : Type) := {
  MPG123_OK : Z;
  MPG123_DONE : Z;
  MPG123_NEW_ID3 : Z;
  MPG123_NEED_MORE : Z;
  MPG123_NEW_FORMAT : Z;
  mpg123_safe_buffer : nat;
  mpg123_feed : M -> Buffer -> nat -> Z * M;
  mpg123_read : M -> nat -> read_reply * M;
  mpg123_id3 : M -> Z * option id3_object * M;
  mpg123_getformat : M -> pcm_format
}.

Inductive emitted :=
  | OfId3 (id3 : option id3_object)
  | OfFormat (format : pcm_format).

Inductive event :=
  | CallFeed (chunk : Buffer)
  | CallRead (size : nat)
  | CallId3
  | CallGetformat
  | Emit (name : string) (arg : emitted)
  | Push (data : Buffer).

(** [id3?.tag], as a condition. *)
Definition has_tag (id3 : option id3_object) : bool :=
  match id3 with
  | Some {| tag := Some t |} => negb (String.eqb t EmptyString)
  | _ => false
  end.

Record result (M : Type) := Result {
  events : list event;
  status : completion;
  engine : M
}.

Arguments Result {M}.
Arguments events {M}.
Arguments status {M}.
Arguments engine {M}.

Section Stage.

Context {M : Type} {binding : Mpg123 M}.

Definition safeBuffer : nat := mpg123_safe_buffer.

Definition done (m : M) (err : option js_error) : result M :=
  Result [] (Completed err) m.

Definition throw (m : M) (x : exn) : result M :=
  Result [] (Thrown x) m.

(** [r], after the events [evs] happened. *)
Definition after (evs : list event) (r : result M) : result M :=
  Result (evs ++ events r) (status r) (engine r).

(** What a read that reported [bytes] decoded bytes makes the stage
    push. *)
Definition pcm (out : Buffer) (bytes : Z) : list event :=
  if 0 <? bytes then [Push (Buffer_slice out 0 bytes)] else [].

(** [handleRead(ret, bytes)]; [read] is the closure it loops back to and
    [out] the buffer the last read filled. *)
Definition handleRead (read : M -> result M) (m : M) (out : Buffer)
    (ret bytes : Z) : result M :=
  let dispatch :=
    if (ret =? MPG123_DONE) || (ret =? MPG123_NEED_MORE) then
      done m None
    else if ret =? MPG123_NEW_FORMAT then
      let format := mpg123_getformat m in
      after [CallGetformat; Emit "format" (OfFormat format)] (read m)
    else if negb (MPG123_OK =? ret) then
      done m (Some (Error ("mpg123_read() failed: " +:+ pretty ret) None))
    else
      read m in
  if 0 <? bytes then
    if bytes <=? Z.of_nat (length out) then
      after [Push (Buffer_slice out 0 bytes)] dispatch
    else
      throw m AssertionError
  else dispatch.

(** The condition of line 74, [meta & MPG123_NEW_ID3 !== 0]: [!==] binds
    tighter than [&], so the comparison is evaluated first and its
    boolean is the right operand of [&]. *)
Definition new_id3_test (meta : Z) : bool :=
  negb (js_bitand meta (bool_to_Z (negb (MPG123_NEW_ID3 =? 0))) =? 0).

(** [read()]: every unit of fuel is one [mpg123_read] whose callback has
    fired. *)
Fixpoint read (fuel : nat) (m : M) : result M :=
  match fuel with
  | O => Result [] Pending m
  | S fuel =>
      let out := replicate safeBuffer Byte.x00 in
      let '(reply, m) := mpg123_read m (length out) in
      let out := written out (rd_data reply) in
      after [CallRead (length out)]
        (if new_id3_test (rd_meta reply) then
           handleRead (read fuel) m out (rd_ret reply) (rd_bytes reply)
         else
           let '(ret2, id3, m) := mpg123_id3 m in
           after [CallId3]
             (if ret2 =? MPG123_OK then
                after [Emit ("id3v" +:+ pretty (if has_tag id3 then 1 else 2))
                         (OfId3 id3)]
                  (handleRead (read fuel) m out (rd_ret reply)
                     (rd_bytes reply))
              else
                done m (Some (Error ("mpg123_id3() failed: " +:+ pretty ret2)
                                None))))
  end.

(** [Decoder.prototype._transform(chunk, _encoding, done)] *)
Definition _transform (fuel : nat) (m : M) (chunk : Buffer) : result M :=
  let '(ret, m) := mpg123_feed m chunk (length chunk) in
  after [CallFeed chunk]
    (if MPG123_OK =? ret then read fuel m
     else done m (Some (Error ("mpg123_feed() failed: " +:+ pretty ret)
                          None))).

(** *** What the properties below speak of *)

(** The read the loop makes with the engine in state [m]: what the
    engine answers, the output buffer it filled, and the engine after
    it. *)
Definition reply_at (m : M) : read_reply := (mpg123_read m safeBuffer).1.

Definition out_at (m : M) : Buffer :=
  written (replicate safeBuffer Byte.x00) (rd_data (reply_at m)).

Definition engine_after_read (m : M) : M := (mpg123_read m safeBuffer).2.

(** Lines 74-86 for that read.  Its result reaches [handleRead] when the
    test of line 74 holds or the metadata call succeeds; until then the
    stage makes the metadata call and emits its event, where the test
    does not hold; [handleRead], or the [done] of line 84, finds the
    engine as the last call left it. *)
Definition reaches_handleRead (m : M) : bool :=
  new_id3_test (rd_meta (reply_at m))
  || ((mpg123_id3 (engine_after_read m)).1.1 =? MPG123_OK).

Definition metadata_events (m : M) : list event :=
  if new_id3_test (rd_meta (reply_at m)) then []
  else
    let '(ret2, id3, _) := mpg123_id3 (engine_after_read m) in
    CallId3 ::
    (if ret2 =? MPG123_OK then
       [Emit ("id3v" +:+ pretty (if has_tag id3 then 1 else 2)) (OfId3 id3)]
     else []).

Definition engine_at_handleRead (m : M) : M :=
  if new_id3_test (rd_meta (reply_at m)) then engine_after_read m
  else (mpg123_id3 (engine_after_read m)).2.

(** The error of line 84 for that read. *)
Definition id3_error (m : M) : js_error :=
  Error ("mpg123_id3() failed: "
         +:+ pretty (mpg123_id3 (engine_after_read m)).1.1) None.

(** The error of line 107 for a status. *)
Definition read_error (ret : Z) : js_error :=
  Error ("mpg123_read() failed: " +:+ pretty ret) None.

(** The run [r] of a chunk comes, with the events [evs] behind it, to a
    read with the engine in state [m]; after the callback of this read,
    [fuel] more can fire. *)
Definition comes_to_read (r : result M) (evs : list event) (fuel : nat)
    (m : M) : Prop :=
  r = after evs (read (S fuel) m).

End Stage.

(** The status and flag values of [mpg123.h], with an engine that
    replays a script: each read takes the next reply, and [mpg123_id3]
    answers with the head of its own list. *)
Record script := Script {
  feed_ret : Z;
  reads : list read_reply;
  id3s : list (Z * option id3_object);
  format : pcm_format
}.

#[local] Instance scripted (size : nat) : Mpg123 script := {|
  MPG123_OK := 0;
  MPG123_DONE := -12;
  MPG123_NEW_ID3 := 1;
  MPG123_NEED_MORE := -10;
  MPG123_NEW_FORMAT := -11;
  mpg123_safe_buffer := size;
  mpg123_feed s _ _ := (feed_ret s, s);
  mpg123_read s _ :=
    match reads s with
    | [] => (ReadReply (-1) 0 0 [], s)
    | r :: rs => (r, Script (feed_ret s) rs (id3s s) (format s))
    end;
  mpg123_id3 s :=
    match id3s s with
    | [] => (-1, None, s)
    | (ret, id3) :: rest =>
        (ret, id3, Script (feed_ret s) (reads s) rest (format s))
    end;
  mpg123_getformat s := format s
|}.

(** The scripted engine with a four-byte output buffer, and a script
    whose feed succeeds and whose metadata is an ID3v1 tag. *)
Definition small : Mpg123 script := scripted 4.

Definition replies (rs : list read_reply) : script :=
  Script 0 rs [(0, Some (Id3 (Some "TAG") "title"))] (Format 208 44100 2).

End Decoder.

(** ** The Encoder stage ([lib/encoder.js]) *)

Module Encoder.

(** The handle [lame_init] returns; [this.gfp] holds it, or [null]
    ([None]) once it was closed. *)
Definition handle := nat.

(** The part of [binding] the encoder uses; [L] is the state of the LAME
    library behind the handle.  The two encode calls answer with the
    number their callback receives and the bytes they wrote to the output
    buffer. *)
Class Lame (L : Type) := {
  LAME_OKAY : Z;
  PCM_TYPE_SHORT_INT : Z;
  PCM_TYPE_FLOAT : Z;
  PCM_TYPE_DOUBLE : Z;
  sizeof_short : Z;
  sizeof_float : Z;
  sizeof_double : Z;
  lame_init : handle;
  lame_init_params : L -> option handle -> Z * L;
  lame_encode_buffer :
    L -> option handle -> Buffer -> Z -> js_value -> num -> nat -> nat ->
    Z * Buffer * L;
  lame_encode_flush_nogap : L -> option handle -> nat -> nat -> Z * Buffer * L;
  lame_close : L -> option handle -> L
}.

(** Messages for the error codes of the encoding functions; the keys of
    a JavaScript object are strings. *)
Definition ERRORS : gmap string string :=
  <["-1" := "output buffer too small"]>
  (<["-2" := "malloc() problems"]>
  (<["-3" := "lame_init_params() not called"]>
  (<["-4" := "psycho acoustic problems"]> ∅))).

(** [new Error(ERRORS[n])]: a missing key gives [undefined] and an error
    with an empty message. *)
Definition ERRORS_message (n : Z) : string :=
  default EmptyString (ERRORS !! pretty n).

(** The fields of an [Encoder] object that the methods use.  [undefined]
    and [null] are one case for [_remainder] (both are falsy and nothing
    else is asked of them), [undefined] is [false] for [_initCalled] and
    NaN for [blockAlign].  [channels] is the value [this.channels] has:
    where the binding exports the accessors of the LAME parameter
    [num_channels], the loop that closes the file makes the property read
    and write that parameter. *)
Record Encoder := Build {
  gfp : option handle;
  inputType : Z;
  channels : js_value;
  bitDepth : js_value;
  simpleRate : js_value;
  signed : js_value;
  _initCalled : bool;
  blockAlign : num;
  _remainder : option Buffer
}.

Definition set_gfp (h : option handle) (e : Encoder) : Encoder :=
  Build h (inputType e) (channels e) (bitDepth e) (simpleRate e) (signed e)
    (_initCalled e) (blockAlign e) (_remainder e).

Definition set_initCalled (b : bool) (e : Encoder) : Encoder :=
  Build (gfp e) (inputType e) (channels e) (bitDepth e) (simpleRate e)
    (signed e) b (blockAlign e) (_remainder e).

Definition set_blockAlign (n : num) (e : Encoder) : Encoder :=
  Build (gfp e) (inputType e) (channels e) (bitDepth e) (simpleRate e)
    (signed e) (_initCalled e) n (_remainder e).

Definition set_remainder (r : option Buffer) (e : Encoder) : Encoder :=
  Build (gfp e) (inputType e) (channels e) (bitDepth e) (simpleRate e)
    (signed e) (_initCalled e) (blockAlign e) r.

Inductive event :=
  | CallInitParams (h : option handle)
  | CallEncode (h : option handle) (chunk : Buffer) (inputType : Z)
      (channels : js_value) (numSamples : num) (size : nat)
  | CallFlush (h : option handle) (size : nat)
  | CallClose (h : option handle)
  | Push (data : Buffer).

Record result (L : Type) := Result {
  events : list event;
  status : completion;
  self : Encoder;
  engine : L
}.

Arguments Result {L}.
Arguments events {L}.
Arguments status {L}.
Arguments self {L}.
Arguments engine {L}.

(** An options object, and a property of it. *)
Abbreviation options := (gmap string js_value).

Definition get (o : options) (key : string) : js_value :=
  default JUndefined (o !! key).

(** A destructuring default applies when the property is [undefined]. *)
Definition or_default (v d : js_value) : js_value :=
  match v with
  | JUndefined => d
  | _ => v
  end.

(** The value an identifier names inside a callback whose parameters
    [params] were bound to [args]; no enclosing scope of the two
    callbacks below declares [bytesWritten], so only the parameters can
    resolve it. *)
Fixpoint lookup_parameter (params : list string) (args : list Z)
    (x : string) : option Z :=
  match params, args with
  | p :: params, a :: args =>
      if String.eqb p x then Some a else lookup_parameter params args x
  | _, _ => None
  end.

(** The argument of [new Encoder(arg)]: none or [undefined], [null], or
    an object. *)
Inductive argument :=
  | Undefined
  | Null
  | Object (o : options).

(** How [new Encoder(arg)] ends: with the object, with an [Error] the
    constructor built, with the [TypeError] of destructuring [null], or
    with the exception of [super(options)]. *)
Inductive construction :=
  | Constructed (e : Encoder)
  | ThrowsError (err : js_error)
  | ThrowsTypeError
  | ThrowsOfSuper.

(** The constructor of Node's [Transform], as far as the Encoder depends
    on it: it returns for the stream options it accepts and throws for the
    others (a negative [highWaterMark], say). *)
Class Transform := {
  Transform_accepts : options -> bool
}.

(** The rest object [...options] of the parameter pattern. *)
Definition rest_options (o : options) : options :=
  delete "signed" (delete "simpleRate" (delete "bitDepth"
    (delete "channels" o))).

Section Stage.

Context {L : Type} {binding : Lame L} {stream : Transform}.

Definition SHORT_BITS : num := js_mul (of_Z sizeof_short) (of_Z 8).
Definition FLOAT_BITS : num := js_mul (of_Z sizeof_float) (of_Z 8).
Definition DOUBLE_BITS : num := js_mul (of_Z sizeof_double) (of_Z 8).

(** [new Encoder(arg)].  The parameter pattern, with its default [{}]
    for a missing argument, takes [channels], [bitDepth], [simpleRate] and
    [signed] out of the argument and binds [options] to the remaining
    properties; destructuring [null] throws.  [super(options)] comes
    first in the body. *)
Definition constructor (arg : argument) : construction :=
  match arg with
  | Null => ThrowsTypeError
  | _ =>
      let o := match arg with Object o => o | _ => ∅ end in
      let channels := or_default (get o "channels") (JNum 2) in
      let bitDepth := or_default (get o "bitDepth") (JNum 16) in
      let simpleRate := or_default (get o "simpleRate") (JNum 44100) in
      let signed :=
        or_default (get o "signed") (JBool (strict_ne_int bitDepth 8)) in
      let options := rest_options o in
      if negb (Transform_accepts options) then ThrowsOfSuper
      else
        let gfp := lame_init in
        let float := ToBoolean (get options "float") in
        let construct (inputType : Z) :=
          Constructed
            (Build (Some gfp) inputType channels bitDepth simpleRate signed
               false None None) in
        if float && loose_eq_number (get options "bitDepth") DOUBLE_BITS then
          construct PCM_TYPE_DOUBLE
        else if float && loose_eq_number (get options "bitDepth") FLOAT_BITS
        then
          construct PCM_TYPE_FLOAT
        else if negb float
                && loose_eq_number (get options "bitDepth") SHORT_BITS then
          construct PCM_TYPE_SHORT_INT
        else
          ThrowsError (Error "unsupported PCM format!" None)
  end.

Definition done (e : Encoder) (l : L) (err : option js_error) : result L :=
  Result [] (Completed err) e l.

Definition throw (e : Encoder) (l : L) (x : exn) : result L :=
  Result [] (Thrown x) e l.

(** [r], after the events [evs] happened. *)
Definition after (evs : list event) (r : result L) : result L :=
  Result (evs ++ events r) (status r) (self r) (engine r).

(** [this.bitDepth / 8 * this.channels], the number of bytes of one
    sample frame. *)
Definition block_align (bitDepth channels : js_value) : num :=
  js_mul (js_div (ToNumber bitDepth) (of_Z 8)) (ToNumber channels).

(** [_init()]: the error it throws, or the object with [blockAlign] set. *)
Definition _init (e : Encoder) (l : L) : (js_error + Encoder) * L :=
  let '(r, l) := lame_init_params l (gfp e) in
  if negb (LAME_OKAY =? r) then
    (inl (Error ("error initializing params: " +:+ pretty r) None), l)
  else
    (inr (set_blockAlign (block_align (bitDepth e) (channels e)) e), l).

(** The guarded call of [_init] that opens [_transform] and [_flush];
    [k] is the rest of the method. *)
Definition with_init (e : Encoder) (l : L)
    (k : Encoder -> L -> result L) : result L :=
  if negb (_initCalled e) then
    match _init e l with
    | (inl err, l) => after [CallInitParams (gfp e)] (done e l (Some err))
    | (inr e', l) =>
        after [CallInitParams (gfp e)] (k (set_initCalled true e') l)
    end
  else k e l.

(** The three-way test on [bytesWritten] both callbacks end with; the
    identifier is [None] where the callback has no binding for it. *)
Definition report (bytesWritten : option Z) (output : Buffer)
    (e : Encoder) (l : L) : result L :=
  match bytesWritten with
  | None => throw e l (ReferenceError "bytesWritten")
  | Some n =>
      if n <? 0 then done e l (Some (Error (ERRORS_message n) (Some n)))
      else if 0 <? n then
        after [Push (Buffer_slice output 0 n)] (done e l None)
      else done e l None
  end.

(** "first handle any _remainder" (lines 221-224) *)
Definition prepend_remainder (e : Encoder) (chunk : Buffer)
    : Buffer * Encoder :=
  match _remainder e with
  | Some r => (r ++ chunk, set_remainder None e)
  | None => (chunk, e)
  end.

(** "set any necessary _remainder" (lines 227-232) *)
Definition keep_remainder (e : Encoder) (chunk : Buffer)
    : Buffer * Encoder :=
  let remainder := js_rem (of_nat (length chunk)) (blockAlign e) in
  if js_gt0 remainder then
    let slice := ToInteger (js_sub (of_nat (length chunk)) remainder) in
    (Buffer_slice chunk 0 slice,
     set_remainder (Some (Buffer_slice_from chunk slice)) e)
  else (chunk, e).

(** The assertion and the bulk encode of the aligned chunk (lines
    234-263). *)
Definition encode (e : Encoder) (l : L) (chunk : Buffer) : result L :=
  if negb (js_is0 (js_rem (of_nat (length chunk)) (blockAlign e))) then
    throw e l AssertionError
  else
    let numSamples := js_div (of_nat (length chunk)) (blockAlign e) in
    let estimatedSize :=
      js_add (js_mul (Some (5 # 4)%Q) numSamples) (of_Z 7200) in
    match Buffer_alloc estimatedSize with
    | None => throw e l RangeError
    | Some output =>
        let '(bytesWritten, data, l) :=
          lame_encode_buffer l (gfp e) chunk (inputType e) (channels e)
            numSamples 0 (length output) in
        let output := written output data in
        after [CallEncode (gfp e) chunk (inputType e) (channels e)
                 numSamples (length output)]
          (report (lookup_parameter ["bytesWritten"] [bytesWritten]
                     "bytesWritten") output e l)
    end.

(** [Encoder.prototype._transform(chunk, _encoding, done)] *)
Definition _transform (e : Encoder) (l : L) (chunk : Buffer) : result L :=
  with_init e l (fun e l =>
    let '(chunk, e) := prepend_remainder e chunk in
    let '(chunk, e) := keep_remainder e chunk in
    encode e l chunk).

(** [Encoder.prototype._flush(done)] *)
Definition _flush (e : Encoder) (l : L) : result L :=
  let estimated_size := Z.to_nat 7200 in
  let output := replicate estimated_size Byte.x00 in
  with_init e l (fun e l =>
    let '(bytesWritten, data, l) :=
      lame_encode_flush_nogap l (gfp e) 0 (length output) in
    let output := written output data in
    let closed := gfp e in
    let l := lame_close l closed in
    let e := set_gfp None e in
    after [CallFlush closed (length output); CallClose closed]
      (report (lookup_parameter [] [bytesWritten] "bytesWritten")
         output e l)).

(** The [Transform] contract the two methods are called under: chunks go
    to [_transform] one at a time, the next one after [done()]; an error
    passed to [done], or an exception, ends the stream (no later method
    of the class runs: it defines no [_destroy]); [_flush] runs once,
    after the last chunk completed. *)
Fixpoint writes (e : Encoder) (l : L) (chunks : list Buffer) : result L :=
  match chunks with
  | [] => done e l None
  | chunk :: chunks =>
      let r := _transform e l chunk in
      match status r with
      | Completed None => after (events r) (writes (self r) (engine r) chunks)
      | _ => r
      end
  end.

Definition lifetime (e : Encoder) (l : L) (chunks : list Buffer) : result L :=
  let r := writes e l chunks in
  match status r with
  | Completed None => after (events r) (_flush (self r) (engine r))
  | _ => r
  end.

(** *** What the properties below speak of *)

(** The bytes the Remainder Buffer holds. *)
Definition remainder_bytes (e : Encoder) : Buffer :=
  default [] (_remainder e).

(** The block alignment the stage works with: the stored one once
    [_init] ran, the one [_init] is going to store before. *)
Definition effective_blockAlign (e : Encoder) : num :=
  if _initCalled e then blockAlign e
  else block_align (bitDepth e) (channels e).

(** The lazy initialisation goes through: it ran before, or
    [lame_init_params] answers [LAME_OKAY]. *)
Definition init_succeeds (e : Encoder) (l : L) : Prop :=
  _initCalled e = true \/ (lame_init_params l (gfp e)).1 = LAME_OKAY.

(** The object, the engine and the trace once it went through. *)
Definition initialised (e : Encoder) : Encoder :=
  if _initCalled e then e
  else set_initCalled true
         (set_blockAlign (block_align (bitDepth e) (channels e)) e).

Definition engine_after_init (e : Encoder) (l : L) : L :=
  if _initCalled e then l else (lame_init_params l (gfp e)).2.

Definition init_events (e : Encoder) : list event :=
  if _initCalled e then [] else [CallInitParams (gfp e)].

(** The bulk encode call the stage makes for a chunk of whole frames of
    [ba] bytes, and what it pushes when the call answered [bytesWritten]
    and wrote [data]. *)
Definition bulk (e : Encoder) (ba : Z) (l : L) (chunk : Buffer)
    : Z * Buffer * L :=
  let samples := Z.of_nat (length chunk) / ba in
  lame_encode_buffer l (gfp e) chunk (inputType e) (channels e)
    (of_Z samples) 0 (Z.to_nat (5 * samples / 4 + 7200)).

Definition bulk_output (ba : Z) (chunk : Buffer) (bytesWritten : Z)
    (data : Buffer) : Buffer :=
  let size := Z.to_nat (5 * (Z.of_nat (length chunk) / ba) / 4 + 7200) in
  if 0 <? bytesWritten then
    Buffer_slice (written (replicate size Byte.x00) data) 0 bytesWritten
  else [].

(** An engine that encodes its input as one stream of frames: a call
    without frames writes nothing and changes nothing, no call fails, and
    two calls in a row write what one call on the two chunks together
    writes, and leave the engine in the same state. *)
Definition streaming (e : Encoder) (ba : Z) : Prop :=
  (forall l,
     let '(n, data, l') := bulk e ba l [] in
     bulk_output ba [] n data = [] /\ l' = l) /\
  (forall l c,
     Z.of_nat (length c) mod ba = 0 -> 0 <= (bulk e ba l c).1.1) /\
  (forall l a b,
     Z.of_nat (length a) mod ba = 0 -> Z.of_nat (length b) mod ba = 0 ->
     let '(n1, d1, l1) := bulk e ba l a in
     let '(n2, d2, l2) := bulk e ba l1 b in
     let '(n, d, l') := bulk e ba l (a ++ b) in
     l' = l2 /\
     bulk_output ba (a ++ b) n d =
       bulk_output ba a n1 d1 ++ bulk_output ba b n2 d2).

End Stage.

(** The chunks handed to the bulk encode calls of a trace, the buffers
    pushed, and the number of [lame_close] calls. *)
Definition submitted (evs : list event) : list Buffer :=
  omap (fun ev =>
          match ev with
          | CallEncode _ chunk _ _ _ _ => Some chunk
          | _ => None
          end) evs.

Definition pushed (evs : list event) : list Buffer :=
  omap (fun ev => match ev with Push data => Some data | _ => None end) evs.

Definition releases (evs : list event) : nat :=
  length (omap (fun ev => match ev with CallClose h => Some h | _ => None end)
            evs).

(** [n] bytes are a whole number of frames of [ba] bytes. *)
Definition multiple_of (ba : num) (n : nat) : Prop :=
  exists (b : Q) (k : Z),
    ba = Some b /\ (inject_Z (Z.of_nat n) == inject_Z k * b)%Q.

(** A bulk encode call receives whole frames only. *)
Definition aligned (ba : num) (ev : event) : Prop :=
  match ev with
  | CallEncode _ chunk _ _ _ _ => multiple_of ba (length chunk)
  | _ => True
  end.

(** The output buffer of a bulk encode call over [n] samples has
    [round (1.25 n) + overhead] bytes, and the one of a flush 7200. *)
Definition sized (round : Q -> Z) (overhead : Z) (ba : num) (ev : event)
    : Prop :=
  match ev with
  | CallEncode _ chunk _ _ numSamples size =>
      exists (b : Q) (n : Z),
        ba = Some b /\ (inject_Z (Z.of_nat (length chunk)) == inject_Z n * b)%Q
        /\ numSamples = of_Z n
        /\ Z.of_nat size = round ((5 # 4) * inject_Z n)%Q + overhead
  | CallFlush _ size => Z.of_nat size = 7200
  | _ => True
  end.

(** The constants of [lame.h] and of the usual C data model, with an
    engine that replays a script: [lame_init_params] answers [init_ret],
    each bulk encode takes the next reply (nothing written once they run
    out), the flush answers [flush_ret], and [closes] counts the calls of
    [lame_close]. *)
Record script := Script {
  init_ret : Z;
  encode_rets : list (Z * Buffer);
  flush_ret : Z * Buffer;
  closes : nat
}.

#[local] Instance scripted : Lame script := {|
  LAME_OKAY := 0;
  PCM_TYPE_SHORT_INT := 0;
  PCM_TYPE_FLOAT := 1;
  PCM_TYPE_DOUBLE := 2;
  sizeof_short := 2;
  sizeof_float := 4;
  sizeof_double := 8;
  lame_init := 1%nat;
  lame_init_params s _ := (init_ret s, s);
  lame_encode_buffer s _ _ _ _ _ _ _ :=
    match encode_rets s with
    | [] => (0, [], s)
    | (n, data) :: rest =>
        (n, data, Script (init_ret s) rest (flush_ret s) (closes s))
    end;
  lame_encode_flush_nogap s _ _ _ := (flush_ret s, s);
  lame_close s _ :=
    Script (init_ret s) (encode_rets s) (flush_ret s) (S (closes s))
|}.

(** An engine that writes one byte for every frame it is given and
    counts the frames. *)
#[local] Instance framer : Lame nat := {|
  LAME_OKAY := 0;
  PCM_TYPE_SHORT_INT := 0;
  PCM_TYPE_FLOAT := 1;
  PCM_TYPE_DOUBLE := 2;
  sizeof_short := 2;
  sizeof_float := 4;
  sizeof_double := 8;
  lame_init := 1%nat;
  lame_init_params frames _ := (0, frames);
  lame_encode_buffer frames _ _ _ _ numSamples _ _ :=
    let n := Z.to_nat (ToInteger numSamples) in
    (Z.of_nat n, replicate n Byte.x2a, (frames + n)%nat);
  lame_encode_flush_nogap frames _ _ _ := (0, [], frames);
  lame_close frames _ := frames
|}.

(** The object the assignments of the constructor describe for 16-bit
    stereo input, before any method ran. *)
Definition stereo16 : Encoder :=
  Build (Some 1%nat) 0 (JNum 2) (JNum 16) (JNum 44100) (JBool true)
    false None None.

(** A script whose calls all succeed and write nothing, and one whose
    [lame_init_params] fails. *)
Definition quiet : script := Script 0 [] (0, []) 0.

Definition refusing : script := Script (-1) [] (0, []) 0.

End Encoder.

(** ** The property surface of the Encoder ([lib/encoder.js], lines
    313-348) *)

Module Surface.
Import Stdlib.Strings.Ascii Encoder.

Local Open Scope char_scope.

(** The character class [[a-zA-Z]]. *)
Definition is_lower (c : ascii) : bool :=
  let n := Ascii.N_of_ascii c in ((97 <=? n) && (n <=? 122))%N.

Definition is_upper (c : ascii) : bool :=
  let n := Ascii.N_of_ascii c in ((65 <=? n) && (n <=? 90))%N.

Definition is_letter (c : ascii) : bool := is_lower c || is_upper c.

(** [s.toUpperCase()], on the ASCII letters; it is only ever applied to
    an underscore followed by one. *)
Definition upper (c : ascii) : ascii :=
  if is_lower c then Ascii.ascii_of_N (Ascii.N_of_ascii c - 32) else c.

Fixpoint toUpperCase (s : string) : string :=
  match s with
  | EmptyString => EmptyString
  | String c s => String (upper c) (toUpperCase s)
  end.

(** [s.replace(c, '')] for a one-character pattern: the first occurrence
    goes. *)
Fixpoint remove_first (c : ascii) (s : string) : string :=
  match s with
  | EmptyString => EmptyString
  | String a s => if Ascii.eqb a c then s else String a (remove_first c s)
  end.

(** The replacement function of [toCamelCase], applied to a match. *)
Definition capital (matched : string) : string :=
  remove_first "_" (toUpperCase matched).

(** [toCamelCase(name)]: every match of [/(\_[a-zA-Z])/g], taken from
    left to right without overlap, is replaced. *)
Fixpoint toCamelCase (name : string) : string :=
  match name with
  | EmptyString => EmptyString
  | String a s =>
      match s with
      | EmptyString => String a EmptyString
      | String b rest =>
          if Ascii.eqb a "_" && is_letter b then
            capital (String a (String b EmptyString)) +:+ toCamelCase rest
          else String a (toCamelCase s)
      end
  end.

(** Does an underscore directly followed by a character of the class [p]
    occur in [s], and does [c] occur in it. *)
Fixpoint underscore_before (p : ascii -> bool) (s : string) : bool :=
  match s with
  | EmptyString => false
  | String a s =>
      match s with
      | EmptyString => false
      | String b _ => Ascii.eqb a "_" && p b || underscore_before p s
      end
  end.

Fixpoint occurs (c : ascii) (s : string) : bool :=
  match s with
  | EmptyString => false
  | String a s => Ascii.eqb a c || occurs c s
  end.

(** The last character of a string is not [c]. *)
Fixpoint not_ending_in (c : ascii) (s : string) : bool :=
  match s with
  | EmptyString => true
  | String a EmptyString => negb (Ascii.eqb a c)
  | String _ s => not_ending_in c s
  end.

(** [/^lame_[gs]et/.test(key)] *)
Definition is_accessor_key (key : string) : bool :=
  String.prefix "lame_get" key || String.prefix "lame_set" key.

(** [key.substring(n)] *)
Fixpoint substring_from (n : nat) (s : string) : string :=
  match n, s with
  | O, _ => s
  | S n, String _ s => substring_from n s
  | S _, EmptyString => EmptyString
  end.

(** ['g' === key[5]] *)
Definition is_getter_key (key : string) : bool :=
  match String.get 5 key with
  | Some c => Ascii.eqb c "g"
  | None => false
  end.

Local Close Scope char_scope.

(** Map of libmp3lame functions to node-lame property names. *)
Definition PROPS : gmap string string :=
  <["brate" := "bitRate"]>
  (<["num_channels" := "channels"]>
  (<["bWriteVbrTag" := "writeVbrTag"]>
  (<["in_samplerate" := "sampleRate"]>
  (<["out_samplerate" := "outSampleRate"]> ∅)))).

(** [PROPS] is an object literal, so besides its own entries [PROPS[name]]
    finds the members of [Object.prototype]. *)
Definition Object_prototype_members : list string :=
  ["constructor"; "hasOwnProperty"; "isPrototypeOf"; "propertyIsEnumerable";
   "toLocaleString"; "toString"; "valueOf"; "__proto__";
   "__defineGetter__"; "__defineSetter__"; "__lookupGetter__";
   "__lookupSetter__"].

(** [PROPS[name] || toCamelCase(name)].  For a name of a member of
    [Object.prototype] the left operand is that member, an object, and
    the property key its conversion to a string; this case is left out of
    the model ([None]). *)
Definition property_name (name : string) : option string :=
  match PROPS !! name with
  | Some prop =>
      if String.eqb prop EmptyString then Some (toCamelCase name)
      else Some prop
  | None =>
      if bool_decide (name ∈ Object_prototype_members) then None
      else Some (toCamelCase name)
  end.

(** The accessor functions of [binding], by key, and the keys in the
    order [Object.keys(binding)] lists them. *)
Class LameAccessors (L : Type) := {
  binding_keys : list string;
  binding_get : string -> L -> option handle -> js_value * L;
  binding_set : string -> L -> option handle -> js_value -> Z * L
}.

(** A property of [Encoder.prototype]: a method of the class, or an
    accessor whose [get] and [set] call the binding functions of the keys
    given. *)
Inductive descriptor :=
  | Method
  | Accessor (get set : option string).

Abbreviation prototype := (gmap string descriptor).

(** [Encoder.prototype] when the class definition has been evaluated. *)
Definition Encoder_prototype : prototype :=
  <["constructor" := Method]>
  (<["_init" := Method]>
  (<["_transform" := Method]>
  (<["_flush" := Method]> ∅))).

(** The outcome of defining accessors: the prototype, the [TypeError] of
    [Object.defineProperty] for a descriptor that has both a value and an
    accessor function, or a key whose property name is outside the
    model. *)
Inductive defined :=
  | Prototype (proto : prototype)
  | TypeError
  | Outside (key : string).

(** The body of the [forEach] callback for one key. *)
Definition define_accessor (proto : prototype) (key : string) : defined :=
  if negb (is_accessor_key key) then Prototype proto
  else
    let name := substring_from 9 key in
    match property_name name with
    | None => Outside key
    | Some prop =>
        let getter := is_getter_key key in
        match proto !! prop with
        | Some Method => TypeError
        | Some (Accessor get set) =>
            Prototype
              (<[prop := if getter then Accessor (Some key) set
                         else Accessor get (Some key)]> proto)
        | None =>
            Prototype
              (<[prop := if getter then Accessor (Some key) None
                         else Accessor None (Some key)]> proto)
        end
    end.

(** [keys.forEach(...)]: an exception ends the loop. *)
Fixpoint define_accessors (proto : prototype) (keys : list string)
    : defined :=
  match keys with
  | [] => Prototype proto
  | key :: keys =>
      match define_accessor proto key with
      | Prototype proto => define_accessors proto keys
      | stopped => stopped
      end
  end.

(** The last key of [keys] that is an accessor key of the given kind
    for the property [prop]. *)
Definition names (prop : string) (getter : bool) (key : string) : bool :=
  is_accessor_key key
  && bool_decide (is_getter_key key = getter)
  && bool_decide (property_name (substring_from 9 key) = Some prop).

Fixpoint backing (prop : string) (getter : bool) (keys : list string)
    : option string :=
  match keys with
  | [] => None
  | key :: keys =>
      match backing prop getter keys with
      | Some later => Some later
      | None => if names prop getter key then Some key else None
      end
  end.

(** The names of the methods the class body defines. *)
Definition method_names : list string :=
  ["constructor"; "_init"; "_transform"; "_flush"].

(** The methods of a prototype are those of the class. *)
Definition keeps_methods (proto : prototype) : Prop :=
  forall q, proto !! q = Some Method <-> q ∈ method_names.

(** The descriptor a property has once later keys were processed, given
    the one it has now. *)
Definition merged (now : option descriptor) (get set : option string)
    : option descriptor :=
  match now, get, set with
  | None, None, None => None
  | None, _, _ => Some (Accessor get set)
  | Some Method, _, _ => Some Method
  | Some (Accessor get0 set0), _, _ =>
      Some (Accessor (from_option Some get0 get) (from_option Some set0 set))
  end.

(** The double quote of the setter's message. *)
Definition quote : string := String (Ascii.ascii_of_nat 34) EmptyString.

Section Accessors.

Context {L : Type} {binding : Lame L} {accessors : LameAccessors L}.

(** The prototype the module leaves behind. *)
Definition installed : defined :=
  define_accessors Encoder_prototype binding_keys.

(** [desc.get] and [desc.set] for the key [key] of the property [prop],
    called on the object [e]: the value returned or the error thrown, and
    the handle the binding function was given. *)
Definition desc_get (key : string) (e : Encoder) (l : L)
    : js_value * option handle * L :=
  let '(v, l) := binding_get key l (gfp e) in
  (v, gfp e, l).

Definition desc_set (prop key : string) (e : Encoder) (l : L) (v : js_value)
    : (js_error + Z) * option handle * L :=
  let '(r, l) := binding_set key l (gfp e) v in
  if negb (LAME_OKAY =? r) then
    (inl (Error ("error setting prop " +:+ quote +:+ prop +:+ quote
                 +:+ ": " +:+ pretty r) None),
     gfp e, l)
  else (inr r, gfp e, l).

End Accessors.

(** The keys of the five accessor pairs [PROPS] renames, a pair for the
    parameter [VBR_q], and two functions that are no accessors. *)
Definition sample_keys : list string :=
  ["lame_init"; "lame_get_brate"; "lame_set_brate";
   "lame_get_num_channels"; "lame_set_num_channels";
   "lame_set_VBR_q"; "lame_get_VBR_q";
   "lame_get_in_samplerate"; "lame_set_in_samplerate"; "lame_close"].

(** The prototype these keys give. *)
Definition sample_prototype : prototype :=
  <["bitRate" := Accessor (Some "lame_get_brate") (Some "lame_set_brate")]>
  (<["channels" := Accessor (Some "lame_get_num_channels")
                     (Some "lame_set_num_channels")]>
  (<["VBRQ" := Accessor (Some "lame_get_VBR_q") (Some "lame_set_VBR_q")]>
  (<["sampleRate" := Accessor (Some "lame_get_in_samplerate")
                       (Some "lame_set_in_samplerate")]>
     Encoder_prototype))).

End Surface.

(** ** What the further properties speak of *)

Module Traces.

(** The number of [lame_init_params] calls in a trace. *)
Definition inits (evs : list Encoder.event) : nat :=
  length (omap (fun ev =>
                  match ev with
                  | Encoder.CallInitParams h => Some h
                  | _ => None
                  end) evs).

(** The handle an engine call was given. *)
Definition handle_of (ev : Encoder.event) : option (option Encoder.handle) :=
  match ev with
  | Encoder.CallInitParams h => Some h
  | Encoder.CallEncode h _ _ _ _ _ => Some h
  | Encoder.CallFlush h _ => Some h
  | Encoder.CallClose h => Some h
  | Encoder.Push _ => None
  end.

(** An engine call of a trace was made on the handle [h]. *)
Definition on_handle (h : option Encoder.handle) (ev : Encoder.event) : Prop :=
  match handle_of ev with
  | Some h' => h' = h
  | None => True
  end.



(** A read asks for as many bytes as the output buffer holds, and a
    decoded buffer that is pushed is not empty and fits that buffer. *)
Definition pcm_bounded (size : nat) (ev : Decoder.event) : Prop :=
  match ev with
  | Decoder.CallRead n => n = size
  | Decoder.Push data => (0 < length data <= size)%nat
  | _ => True
  end.

(** An event other than a feed call. *)
Definition no_feed (ev : Decoder.event) : Prop :=
  match ev with
  | Decoder.CallFeed _ => False
  | _ => True
  end.

(** What holds of every event the read loop adds to a trace. *)
Definition well_formed (size : nat) (ev : Decoder.event) : Prop :=
  pcm_bounded size ev /\ no_feed ev.

(** The number of [mpg123_read] calls in a trace. *)
Definition read_calls (evs : list Decoder.event) : nat :=
  length (omap (fun ev =>
                  match ev with
                  | Decoder.CallRead size => Some size
                  | _ => None
                  end) evs).

(** An engine whose every read answers [MPG123_OK] with one decoded
    byte and the new-ID3 flag set. *)
#[local] Instance endless : Decoder.Mpg123 unit := {|
  Decoder.MPG123_OK := 0;
  Decoder.MPG123_DONE := -12;
  Decoder.MPG123_NEW_ID3 := 1;
  Decoder.MPG123_NEED_MORE := -10;
  Decoder.MPG123_NEW_FORMAT := -11;
  Decoder.mpg123_safe_buffer := 4;
  Decoder.mpg123_feed m _ _ := (0, m);
  Decoder.mpg123_read m _ := (Decoder.ReadReply 0 1 1 [Byte.x2a], m);
  Decoder.mpg123_id3 m := (0, None, m);
  Decoder.mpg123_getformat _ := Decoder.Format 208 44100 2
|}.

End Traces.

(** * Properties of buffers *)

Module BufferFacts.

Lemma length_written (out data : Buffer) :
  length (written out data) = length out.
Proof. unfold written. rewrite length_take, length_app, length_drop. lia. Qed.

Lemma written_prefix (out data : Buffer) :
  (length data <= length out)%nat ->
  take (length data) (written out data) = data.
Proof.
  intros Hle. unfold written. rewrite take_take.
  replace (length data `min` length out)%nat with (length data) by lia.
  by rewrite take_app_length.
Qed.

Lemma slice_split (buf : Buffer) (s : Z) :
  Buffer_slice buf 0 s ++ Buffer_slice_from buf s = buf.
Proof.
  unfold Buffer_slice_from, Buffer_slice, clamp_index.
  change (0 <? 0) with false. cbv iota.
  remember (Z.of_nat (length buf)) as len eqn:Hlen.
  assert (0 <= len) by lia.
  replace (Z.min 0 len) with 0 by lia.
  replace (Z.min len len) with len by lia.
  replace (if len <? 0 then Z.max (len + len) 0 else len) with len
    by (destruct (Z.ltb_spec len 0); lia).
  remember (if s <? 0 then Z.max (len + s) 0 else Z.min s len) as k eqn:Hk.
  assert (0 <= k <= len) by (subst k; destruct (Z.ltb_spec s 0); lia).
  rewrite Z.sub_0_r. change (Z.to_nat 0) with 0%nat. rewrite drop_0.
  rewrite (take_ge (drop _ _)) by (rewrite length_drop; lia).
  apply take_drop.
Qed.

Lemma slice_to (buf : Buffer) (s : Z) :
  0 <= s <= Z.of_nat (length buf) ->
  Buffer_slice buf 0 s = take (Z.to_nat s) buf.
Proof.
  intros Hs. unfold Buffer_slice, clamp_index.
  change (0 <? 0) with false. cbv iota.
  destruct (Z.ltb_spec s 0); [lia|].
  replace (Z.min 0 _) with 0 by lia. replace (Z.min s _) with s by lia.
  by rewrite Z.sub_0_r.
Qed.

Lemma slice_from (buf : Buffer) (s : Z) :
  0 <= s <= Z.of_nat (length buf) ->
  Buffer_slice_from buf s = drop (Z.to_nat s) buf.
Proof.
  intros Hs. apply (app_inv_head (Buffer_slice buf 0 s)).
  rewrite slice_split, slice_to by done. by rewrite take_drop.
Qed.

End BufferFacts.

Module NumFacts.

Lemma Qred_inject_Z (z : Z) : Qred (inject_Z z) = inject_Z z.
Proof. apply Qcanon.Qred_identity. simpl. apply Z.gcd_1_r. Qed.

Lemma Qred_eq_inject_Z (q : Q) (z : Z) :
  (q == inject_Z z)%Q -> Qred q = inject_Z z.
Proof. intros E. rewrite <- Qred_inject_Z. by apply Qred_complete. Qed.

Lemma Qeq_bool_false_neq (x y : Q) : Qeq_bool x y = false -> ~ (x == y)%Q.
Proof. intros E H. apply Qeq_bool_iff in H. congruence. Qed.

Lemma Qfloor_unit (x : Q) : (0 <= x)%Q -> (x < 1)%Q -> Qfloor x = 0.
Proof.
  intros H0 H1.
  pose proof (Qfloor_le x) as Hl. pose proof (Qlt_floor x) as Hu.
  assert (inject_Z (Qfloor x) < inject_Z 1)%Q as A
    by (eapply Qle_lt_trans; [exact Hl|exact H1]).
  assert (inject_Z 0 < inject_Z (Qfloor x + 1))%Q as B
    by (eapply Qle_lt_trans; [exact H0|exact Hu]).
  rewrite <- Zlt_Qlt in A, B. lia.
Qed.

Lemma Qtrunc_inject_Z (z : Z) : Qtrunc (inject_Z z) = z.
Proof.
  unfold Qtrunc. destruct (Qle_bool 0 (inject_Z z)).
  - apply Qfloor_Z.
  - apply Qceiling_Z.
Qed.

(** The remainder of two integers, the divisor positive. *)
Lemma js_rem_integers (n b : Z) :
  0 <= n -> 0 < b -> js_rem (of_Z n) (of_Z b) = of_Z (n mod b).
Proof.
  intros Hn Hb. unfold js_rem, of_Z. simpl.
  destruct (Qeq_bool (inject_Z b) 0) eqn:E.
  { apply Qeq_bool_iff in E. change 0%Q with (inject_Z 0) in E.
    apply (proj1 (inject_Z_injective _ _)) in E. lia. }
  f_equal. apply Qred_eq_inject_Z.
  assert (Qtrunc (inject_Z n / inject_Z b) = n / b) as ->.
  { unfold Qtrunc. rewrite <- Zdiv_Qdiv.
    destruct (Qle_bool 0 (inject_Z n / inject_Z b)) eqn:E'; [done|].
    exfalso. assert (Qle_bool 0 (inject_Z n / inject_Z b) = true); [|congruence].
    apply Qle_bool_iff. apply Qle_shift_div_l.
    - change 0%Q with (inject_Z 0). by rewrite <- Zlt_Qlt.
    - rewrite Qmult_0_l. change 0%Q with (inject_Z 0). by rewrite <- Zle_Qle. }
  unfold Qminus. rewrite <- inject_Z_mult, <- inject_Z_opp, <- inject_Z_plus.
  apply (proj2 (inject_Z_injective _ _)). rewrite Z.mod_eq by lia. lia.
Qed.

(** A dividend smaller than the divisor is its own remainder. *)
Lemma js_rem_small (n : Z) (b : Q) :
  0 <= n -> (inject_Z n < b)%Q -> js_rem (of_Z n) (Some b) = of_Z n.
Proof.
  intros Hn Hb. unfold js_rem, of_Z. simpl.
  assert (0 < b)%Q as Hpos.
  { eapply Qle_lt_trans; [|exact Hb]. change 0%Q with (inject_Z 0).
    by rewrite <- Zle_Qle. }
  destruct (Qeq_bool b 0) eqn:E.
  { apply Qeq_bool_iff in E. rewrite E in Hpos. by apply Qlt_irrefl in Hpos. }
  f_equal. apply Qred_eq_inject_Z.
  assert (Qtrunc (inject_Z n / b) = 0) as ->.
  { unfold Qtrunc.
    assert (0 <= inject_Z n / b)%Q as H0.
    { apply Qle_shift_div_l; [done|]. rewrite Qmult_0_l.
      change 0%Q with (inject_Z 0). by rewrite <- Zle_Qle. }
    rewrite (proj2 (Qle_bool_iff _ _) H0).
    apply Qfloor_unit; [done|].
    apply Qlt_shift_div_r; [done|]. by rewrite Qmult_1_l. }
  change (inject_Z 0) with 0%Q. ring.
Qed.

(** A remainder that is zero makes the dividend a multiple. *)
Lemma js_rem_zero_multiple (n : Z) (ba : num) :
  js_is0 (js_rem (of_Z n) ba) = true ->
  exists b, ba = Some b /\ ~ (b == 0)%Q /\
    (inject_Z n == inject_Z (Qtrunc (inject_Z n / b)) * b)%Q.
Proof.
  destruct ba as [b|]; [|done]. unfold js_rem, of_Z. simpl.
  destruct (Qeq_bool b 0) eqn:E; [done|]. simpl.
  intros H. apply Qeq_bool_iff in H. rewrite Qred_correct in H.
  exists b. split; [done|]. split; [by apply Qeq_bool_false_neq|].
  rewrite <- (Qplus_0_r (_ * b)), <- H. ring.
Qed.

Lemma js_is0_zero : js_is0 (of_Z 0) = true.
Proof. reflexivity. Qed.

Lemma inject_Z_nonzero (b : Z) : b ≠ 0 -> ~ (inject_Z b == 0)%Q.
Proof.
  intros Hb E. change 0%Q with (inject_Z 0) in E.
  by apply (proj1 (inject_Z_injective _ _)) in E.
Qed.

(** An exact quotient of integers. *)
Lemma js_div_integers (n b : Z) :
  b ≠ 0 -> n mod b = 0 -> js_div (of_Z n) (of_Z b) = of_Z (n / b).
Proof.
  intros Hb Hm. unfold js_div, of_Z. simpl.
  destruct (Qeq_bool (inject_Z b) 0) eqn:E.
  { apply Qeq_bool_iff in E. by apply inject_Z_nonzero in E. }
  f_equal. apply Qred_eq_inject_Z.
  rewrite (Z.div_mod n b Hb) at 1. rewrite Hm, Z.add_0_r, inject_Z_mult.
  field. by apply inject_Z_nonzero.
Qed.

(** The quotient behind a zero remainder is the truncated one. *)
Lemma js_div_exact (n : Z) (b : Q) :
  ~ (b == 0)%Q ->
  (inject_Z n == inject_Z (Qtrunc (inject_Z n / b)) * b)%Q ->
  js_div (of_Z n) (Some b) = of_Z (Qtrunc (inject_Z n / b)).
Proof.
  intros Hb E. unfold js_div, of_Z. simpl.
  destruct (Qeq_bool b 0) eqn:E0; [by apply Qeq_bool_iff in E0|].
  f_equal. apply Qred_eq_inject_Z.
  rewrite E at 1. field. done.
Qed.

Lemma Qfloor_scaled (s : Z) : Qfloor ((5 # 4) * inject_Z s) = 5 * s / 4.
Proof.
  unfold Qfloor, Qmult, inject_Z. cbn [Qnum Qden].
  change (Z.pos (4 * 1)) with 4. reflexivity.
Qed.

(** [1.25 * numSamples + 7200], as [Buffer.alloc] rounds it. *)
Lemma estimated_floor (s : Z) :
  Qfloor (Qred (Qred ((5 # 4) * inject_Z s) + inject_Z 7200)) =
  5 * s / 4 + 7200.
Proof.
  rewrite (Qfloor_comp _ _ (Qred_correct _)).
  rewrite (Qfloor_comp _ ((5 # 4) * inject_Z s + inject_Z 7200)%Q)
    by (by rewrite Qred_correct).
  unfold Qfloor, Qplus, Qmult, inject_Z. cbn [Qnum Qden].
  change (Z.pos (4 * 1 * 1)) with 4. change (Z.pos (4 * 1)) with 4.
  replace (5 * s * 1 + 7200 * 4) with (5 * s + 7200 * 4) by lia.
  by rewrite Z.div_add.
Qed.

Lemma estimated_size (s : Z) :
  js_add (js_mul (Some (5 # 4)%Q) (of_Z s)) (of_Z 7200) =
  Some (Qred (Qred ((5 # 4) * inject_Z s) + inject_Z 7200)).
Proof. reflexivity. Qed.

Lemma Qle_bool_floor (q : Q) : Qle_bool 0 q = true -> 0 <= Qfloor q.
Proof.
  intros H. apply Qle_bool_iff in H.
  change 0 with (Qfloor 0). by apply Qfloor_resp_le.
Qed.

Lemma estimated_nonneg (s : Z) :
  0 <= s ->
  Qle_bool 0 (Qred (Qred ((5 # 4) * inject_Z s) + inject_Z 7200)) = true.
Proof.
  intros Hs. apply Qle_bool_iff. rewrite !Qred_correct.
  unfold Qle, Qplus, Qmult, inject_Z. cbn [Qnum Qden].
  change (Z.pos (4 * 1 * 1)) with 4. change (Z.pos (4 * 1)) with 4. lia.
Qed.

End NumFacts.

(** * Properties of the Decoder stage *)

Module DecoderFacts.
Import Decoder BufferFacts.

Lemma ToInt32_parity (z : Z) : ToInt32 z mod 2 = z mod 2.
Proof.
  unfold ToInt32.
  pose proof (Z.div_mod (z + 2 ^ 31) (2 ^ 32) ltac:(lia)) as E.
  replace ((z + 2 ^ 31) mod 2 ^ 32 - 2 ^ 31)
    with (z + (- (2 ^ 31 * ((z + 2 ^ 31) / 2 ^ 32))) * 2) by lia.
  apply Z.mod_add. lia.
Qed.

Lemma js_bitand_1 (z : Z) : js_bitand z 1 = z mod 2.
Proof.
  unfold js_bitand. change (ToInt32 1) with (Z.ones 1).
  rewrite Z.land_ones by lia. apply ToInt32_parity.
Qed.

Lemma land_1 (z : Z) : Z.land z 1 = z mod 2.
Proof. change 1 with (Z.ones 1) at 1. rewrite Z.land_ones by lia. reflexivity. Qed.

Section Facts.

Context {M : Type} {binding : Mpg123 M}.

Lemma after_events_app (evs evs' : list event) (r : result M) :
  after evs (after evs' r) = after (evs ++ evs') r.
Proof. unfold after. simpl. by rewrite app_assoc. Qed.

Lemma after_no_events (r : result M) : after [] r = r.
Proof. by destruct r. Qed.

(** With the flag value of [mpg123.h], the test of line 74 is true
    exactly when the new-ID3 bit of [meta] is set. *)
Lemma new_id3_test_flag (meta : Z) :
  MPG123_NEW_ID3 = 1 ->
  new_id3_test meta = negb (Z.land meta MPG123_NEW_ID3 =? 0).
Proof.
  intros E. unfold new_id3_test. rewrite E. simpl.
  by rewrite js_bitand_1, land_1.
Qed.

(** [handleRead] splits into the push of step 4 and the dispatch on the
    status, unless the assertion on the byte count fails. *)
Lemma handleRead_pcm (k : M -> result M) m out ret bytes :
  bytes <= Z.of_nat (length out) ->
  handleRead k m out ret bytes =
  after (pcm out bytes) (handleRead k m out ret 0).
Proof.
  intros Hb. unfold handleRead, pcm. simpl.
  destruct (0 <? bytes); [|by rewrite after_no_events].
  by rewrite (proj2 (Z.leb_le _ _) Hb).
Qed.

Lemma handleRead_no_id3 (k : M -> result M) m out ret bytes :
  CallId3 ∉ events (k m) ->
  CallId3 ∉ events (handleRead k m out ret bytes).
Proof.
  intros Hk. unfold handleRead.
  repeat case_match; simpl; rewrite ?elem_of_cons, ?elem_of_nil;
    try tauto; intros Hin; decompose [or] Hin; try discriminate; tauto.
Qed.

(** C3, as the code has it: with the flag value of [mpg123.h], a read
    is followed by the metadata call [mpg123_id3] exactly when the new-ID3
    bit of its event flags is clear; a read whose flags have the bit set
    goes to [handleRead] with no metadata call.  This is the opposite of
    the condition C3 states. *)
Theorem id3_fetched_iff_flag_clear (m : M) :
  MPG123_NEW_ID3 = 1 ->
  CallId3 ∈ events (read 1 m) <->
  Z.land (rd_meta (mpg123_read m safeBuffer).1) MPG123_NEW_ID3 = 0.
Proof.
  intros E. simpl. rewrite length_replicate.
  destruct (mpg123_read m safeBuffer) as [reply m1]. simpl.
  rewrite (new_id3_test_flag _ E).
  destruct (Z.eqb_spec (Z.land (rd_meta reply) MPG123_NEW_ID3) 0) as [Hz|Hz];
    simpl.
  - split; [done|intros _].
    destruct (mpg123_id3 m1) as [[ret2 id3] m2]. simpl.
    apply elem_of_cons. right. apply elem_of_cons. by left.
  - split; [|done]. intros Hin. exfalso.
    apply elem_of_cons in Hin as [Hin|Hin]; [discriminate|].
    revert Hin. apply handleRead_no_id3. simpl. apply not_elem_of_nil.
Qed.

Lemma after_status (evs : list event) (r : result M) :
  status (after evs r) = status r.
Proof. reflexivity. Qed.

Lemma after_events (evs : list event) (r : result M) :
  events (after evs r) = evs ++ events r.
Proof. reflexivity. Qed.

(** One pass of the loop, up to [handleRead]. *)
Lemma read_pass (fuel : nat) (m : M) :
  read (S fuel) m =
    after (CallRead safeBuffer :: metadata_events m)
      (if reaches_handleRead m then
         handleRead (read fuel) (engine_at_handleRead m) (out_at m)
           (rd_ret (reply_at m)) (rd_bytes (reply_at m))
       else done (engine_at_handleRead m) (Some (id3_error m))).
Proof.
  cbn [read]. cbv zeta.
  unfold metadata_events, reaches_handleRead, engine_at_handleRead, out_at,
    id3_error, engine_after_read, reply_at.
  rewrite length_replicate.
  destruct (mpg123_read m safeBuffer) as [reply m1]. cbn [fst snd].
  rewrite length_written, length_replicate.
  destruct (new_id3_test (rd_meta reply)); [done|]. cbn [orb].
  destruct (mpg123_id3 m1) as [[ret2 id3] m2]. cbn [fst snd].
  rewrite after_events_app.
  by destruct (ret2 =? MPG123_OK).
Qed.

Lemma length_out_at (m : M) : length (out_at m) = safeBuffer.
Proof. unfold out_at. by rewrite length_written, length_replicate. Qed.

(** A read whose result does not reach [handleRead] had the test of
    line 74 fail and the metadata call fail: with the flag value of
    [mpg123.h], its flags have the new-ID3 bit clear. *)
Lemma skips_handleRead (m : M) :
  reaches_handleRead m = false ->
  new_id3_test (rd_meta (reply_at m)) = false /\
  (mpg123_id3 (engine_after_read m)).1.1 <> MPG123_OK /\
  metadata_events m = [CallId3] /\
  (MPG123_NEW_ID3 = 1 ->
   Z.land (rd_meta (reply_at m)) MPG123_NEW_ID3 = 0).
Proof.
  unfold reaches_handleRead, metadata_events.
  intros [Ht Hok]%orb_false_elim. rewrite Ht.
  apply Z.eqb_neq in Hok. split; [done|]. split; [done|]. split.
  - destruct (mpg123_id3 (engine_after_read m)) as [[ret2 id3] m2].
    cbn [fst] in Hok. by rewrite (proj2 (Z.eqb_neq _ _) Hok).
  - intros E. rewrite (new_id3_test_flag _ E) in Ht.
    by destruct (Z.eqb_spec (Z.land (rd_meta (reply_at m)) MPG123_NEW_ID3) 0).
Qed.

(** [handleRead] on NEW_FORMAT. *)
Lemma handleRead_new_format (k : M -> result M) m out bytes :
  MPG123_NEW_FORMAT ≠ MPG123_DONE ->
  MPG123_NEW_FORMAT ≠ MPG123_NEED_MORE ->
  bytes <= Z.of_nat (length out) ->
  handleRead k m out MPG123_NEW_FORMAT bytes =
    after (pcm out bytes ++
           [CallGetformat; Emit "format" (OfFormat (mpg123_getformat m))])
      (k m).
Proof.
  intros Hd Hn Hb.
  rewrite handleRead_pcm by done. rewrite <- after_events_app. f_equal.
  unfold handleRead. simpl.
  rewrite (proj2 (Z.eqb_neq _ _) Hd), (proj2 (Z.eqb_neq _ _) Hn).
  by rewrite Z.eqb_refl.
Qed.

(** The four ways [handleRead] goes on: with the [format] event and the
    loop, with the loop, or -- with or without the push -- with the end
    of the chunk. *)
Lemma handleRead_cases (k : M -> result M) m out ret bytes :
  (ret = MPG123_NEW_FORMAT /\
   handleRead k m out ret bytes =
     after (pcm out bytes ++
            [CallGetformat; Emit "format" (OfFormat (mpg123_getformat m))])
       (k m))
  \/ handleRead k m out ret bytes = after (pcm out bytes) (k m)
  \/ exists pushes st,
       handleRead k m out ret bytes = Result pushes st m /\
       (pushes = [] \/ pushes = pcm out bytes).
Proof.
  unfold handleRead, pcm. cbv zeta.
  destruct (0 <? bytes).
  - destruct (bytes <=? Z.of_nat (length out));
      [|right; right; eexists _, _; split; [done|by left]].
    destruct ((ret =? MPG123_DONE) || (ret =? MPG123_NEED_MORE));
      [right; right; eexists _, _; split; [done|by right]|].
    destruct (Z.eqb_spec ret MPG123_NEW_FORMAT) as [->|].
    { left. split; [done|]. by rewrite after_events_app. }
    destruct (negb (MPG123_OK =? ret));
      [right; right; eexists _, _; split; [done|by right]|].
    by right; left.
  - destruct ((ret =? MPG123_DONE) || (ret =? MPG123_NEED_MORE));
      [right; right; eexists _, _; split; [done|by right]|].
    destruct (Z.eqb_spec ret MPG123_NEW_FORMAT) as [->|].
    { left. split; [done|]. done. }
    destruct (negb (MPG123_OK =? ret));
      [right; right; eexists _, _; split; [done|by right]|].
    right; left. by rewrite after_no_events.
Qed.

(** An element that is not in the front part of a list is met behind
    it. *)
Lemma split_behind {A : Type} (x : A) (front back before after : list A) :
  before ++ x :: after = front ++ back ->
  x ∉ front ->
  exists mid, before = front ++ mid /\ back = mid ++ x :: after.
Proof.
  revert before. induction front as [|h front IH]; intros before E Hx.
  { by exists before. }
  destruct before as [|b before]; cbn in E; injection E as E1 E2.
  - subst h. exfalso. apply Hx. by left.
  - subst b. destruct (IH before E2) as (mid & -> & ->).
    + intros Hin. apply Hx. by right.
    + by exists mid.
Qed.

Lemma no_format_before_handleRead (m : M) (out : Buffer) (bytes : Z) arg :
  Emit "format" arg ∉
    CallRead safeBuffer :: metadata_events m ++ pcm out bytes.
Proof.
  unfold metadata_events, pcm.
  destruct (new_id3_test _); [|destruct (mpg123_id3 _) as [[ret2 id3] m2];
                                destruct (ret2 =? MPG123_OK)];
    destruct (0 <? bytes); cbn [app];
    rewrite ?not_elem_of_cons; repeat split;
    try discriminate; try apply not_elem_of_nil;
    by destruct (has_tag id3).
Qed.

(** Every [format] event of the loop belongs to a read that answered
    NEW_FORMAT. *)
Lemma format_event_of_read (fuel : nat) (m : M) before arg after :
  events (read fuel m) = before ++ Emit "format" arg :: after ->
  exists evs fuel' m1,
    read fuel m = Decoder.after evs (read (S fuel') m1) /\
    rd_ret (reply_at m1) = MPG123_NEW_FORMAT /\
    reaches_handleRead m1 = true /\
    before =
      evs ++ CallRead safeBuffer :: metadata_events m1
          ++ pcm (out_at m1) (rd_bytes (reply_at m1)) ++ [CallGetformat] /\
    arg = OfFormat (mpg123_getformat (engine_at_handleRead m1)) /\
    after = events (read fuel' (engine_at_handleRead m1)).
Proof.
  revert m before. induction fuel as [|fuel IH]; intros m before E.
  { by destruct before. }
  symmetry in E. rewrite read_pass in E. rewrite after_events in E.
  pose proof (no_format_before_handleRead m (out_at m)
                (rd_bytes (reply_at m)) arg) as Hno.
  assert (Emit "format" arg ∉ CallRead safeBuffer :: metadata_events m)
    as Hno'.
  { intros Hin. apply Hno. rewrite app_comm_cons. apply elem_of_app.
    by left. }
  destruct (reaches_handleRead m) eqn:Hreach.
  2: { cbn [done events] in E. rewrite app_nil_r in E.
       exfalso. apply Hno'. rewrite <- E. apply elem_of_app. right. by left. }
  destruct (handleRead_cases (read fuel) (engine_at_handleRead m) (out_at m)
              (rd_ret (reply_at m)) (rd_bytes (reply_at m)))
    as [[Hret Hh]|[Hh|(pushes & st & Hh & Hp)]]; rewrite Hh in E.
  - rewrite after_events in E.
    assert (before ++ Emit "format" arg :: after =
            (CallRead safeBuffer :: metadata_events m
               ++ pcm (out_at m) (rd_bytes (reply_at m)))
            ++ [CallGetformat;
                Emit "format"
                  (OfFormat (mpg123_getformat (engine_at_handleRead m)))]
            ++ events (read fuel (engine_at_handleRead m))) as E'.
    { rewrite E. cbn [app]. f_equal. by repeat rewrite <- app_assoc. }
    destruct (split_behind _ _ _ _ _ E') as (mid & -> & Hmid); [done|].
    destruct mid as [|c1 [|c2 mid]]; cbn in Hmid.
    + discriminate.
    + injection Hmid as <- Harg Hafter. subst arg after.
      exists [], fuel, m. rewrite after_no_events.
      split; [done|]. split; [done|]. split; [done|].
      split; [|done]. cbn [app]. repeat rewrite <- app_assoc. by cbn [app].
    + injection Hmid as <- <- Hmid.
      destruct (IH _ _ Hmid) as (evs & fuel' & m1 & Hrun & Hr & Hc & -> & Ha).
      exists ((CallRead safeBuffer :: metadata_events m)
                ++ (pcm (out_at m) (rd_bytes (reply_at m))
                    ++ [CallGetformat;
                        Emit "format"
                          (OfFormat
                             (mpg123_getformat (engine_at_handleRead m)))])
                ++ evs), fuel', m1.
      split.
      { rewrite read_pass, Hreach, Hh, Hrun.
        by rewrite !after_events_app, !app_assoc. }
      split; [done|]. split; [done|]. split; [|done].
      cbn [app]. repeat rewrite <- app_assoc. by cbn [app].
  - rewrite after_events in E.
    assert (before ++ Emit "format" arg :: after =
            (CallRead safeBuffer :: metadata_events m
               ++ pcm (out_at m) (rd_bytes (reply_at m)))
            ++ events (read fuel (engine_at_handleRead m))) as E'.
    { rewrite E. cbn [app]. f_equal. by repeat rewrite <- app_assoc. }
    destruct (split_behind _ _ _ _ _ E') as (mid & -> & Hmid); [done|].
    destruct (IH _ _ Hmid) as (evs & fuel' & m1 & Hrun & Hr & Hc & -> & Ha).
    exists ((CallRead safeBuffer :: metadata_events m)
              ++ pcm (out_at m) (rd_bytes (reply_at m)) ++ evs), fuel', m1.
    split.
    { rewrite read_pass, Hreach, Hh, Hrun.
      by rewrite !after_events_app, !app_assoc. }
    split; [done|]. split; [done|]. split; [|done].
    cbn [app]. repeat rewrite <- app_assoc. by cbn [app].
  - cbn [events] in E. exfalso.
    destruct Hp as [->| ->].
    + rewrite app_nil_r in E. apply Hno'. rewrite <- E.
      apply elem_of_app. right. by left.
    + cbn [app] in E. apply Hno. rewrite <- E.
      apply elem_of_app. right. by left.
Qed.

(** C7, as the code has it.  On NEW_FORMAT [handleRead] pushes the
    bytes that read reported, asks the engine for the format, emits it in
    a [format] event and goes back to the loop.  In the run of a chunk
    every [format] event belongs to a read that answered NEW_FORMAT: it
    stands behind the events of that read and the push of its own bytes,
    carries the descriptor of [mpg123_getformat], and what follows it is
    the next read of the loop, so every buffer pushed after it was decoded
    by a later read.  A read that answers NEW_FORMAT, with no more bytes
    than the buffer holds, emits the event and reads again when its result
    reaches [handleRead]; when the metadata call of line 78 fails, no
    [format] event is emitted and the chunk ends with the error of that
    call.  Line 78 is reached when the new-ID3 bit is clear, where C7 and
    the specification have no metadata call. *)
Theorem new_format_emitted_before_next_read
    (fuel : nat) (m : M) (chunk : Buffer)
    (k : M -> result M) (out : Buffer) (bytes : Z) :
  (MPG123_NEW_FORMAT ≠ MPG123_DONE ->
   MPG123_NEW_FORMAT ≠ MPG123_NEED_MORE ->
   bytes <= Z.of_nat (length out) ->
   handleRead k m out MPG123_NEW_FORMAT bytes =
     after (pcm out bytes ++
            [CallGetformat; Emit "format" (OfFormat (mpg123_getformat m))])
       (k m))
  /\
  (forall before arg after,
     events (_transform fuel m chunk) = before ++ Emit "format" arg :: after ->
     exists evs fuel' m1,
       comes_to_read (_transform fuel m chunk) evs fuel' m1 /\
       rd_ret (reply_at m1) = MPG123_NEW_FORMAT /\
       reaches_handleRead m1 = true /\
       before =
         evs ++ CallRead safeBuffer :: metadata_events m1
             ++ pcm (out_at m1) (rd_bytes (reply_at m1)) ++ [CallGetformat] /\
       arg = OfFormat (mpg123_getformat (engine_at_handleRead m1)) /\
       after = events (read fuel' (engine_at_handleRead m1)) /\
       match after with
       | [] => fuel' = 0%nat
       | ev :: _ => ev = CallRead safeBuffer
       end)
  /\
  (forall evs fuel' m1,
     comes_to_read (_transform fuel m chunk) evs fuel' m1 ->
     MPG123_NEW_FORMAT ≠ MPG123_DONE ->
     MPG123_NEW_FORMAT ≠ MPG123_NEED_MORE ->
     rd_ret (reply_at m1) = MPG123_NEW_FORMAT ->
     rd_bytes (reply_at m1) <= Z.of_nat safeBuffer ->
     _transform fuel m chunk =
       if reaches_handleRead m1 then
         after (evs ++ CallRead safeBuffer :: metadata_events m1
                  ++ pcm (out_at m1) (rd_bytes (reply_at m1))
                  ++ [CallGetformat;
                      Emit "format"
                        (OfFormat
                           (mpg123_getformat (engine_at_handleRead m1)))])
           (read fuel' (engine_at_handleRead m1))
       else
         Result (evs ++ [CallRead safeBuffer; CallId3])
           (Completed (Some (id3_error m1))) (engine_at_handleRead m1)).
Proof.
  split; [apply handleRead_new_format|]. split.
  - intros before arg after E. unfold _transform in *.
    destruct (mpg123_feed m chunk (length chunk)) as [ret m0].
    rewrite after_events in E.
    destruct before as [|b before]; [discriminate|].
    cbn in E. injection E as <- E.
    destruct (MPG123_OK =? ret).
    2: { by destruct before. }
    destruct (format_event_of_read _ _ _ _ _ E)
      as (evs & fuel' & m1 & Hrun & Hr & Hc & -> & Harg & Hafter).
    exists (CallFeed chunk :: evs), fuel', m1.
    split; [unfold comes_to_read; by rewrite Hrun, after_events_app|].
    split; [done|]. split; [done|]. split; [done|]. split; [done|].
    split; [done|]. rewrite Hafter. destruct fuel' as [|fuel']; [done|].
    by rewrite read_pass.
  - intros evs fuel' m1 Hrun Hd Hn Hret Hb. rewrite Hrun.
    rewrite read_pass, after_events_app.
    destruct (reaches_handleRead m1) eqn:Hreach.
    + rewrite Hret, handleRead_new_format
        by (done || by rewrite length_out_at).
      rewrite after_events_app. f_equal.
      cbn [app]. repeat rewrite <- app_assoc. by cbn [app].
    + destruct (skips_handleRead m1 Hreach) as (_ & _ & -> & _).
      unfold after, done. cbn. by rewrite app_nil_r.
Qed.

(** A status that is none of the four the stage knows ends the chunk
    with the read error, after the bytes the read reported were pushed. *)
Lemma handleRead_failure (k : M -> result M) m out ret bytes :
  ret ≠ MPG123_DONE -> ret ≠ MPG123_NEED_MORE ->
  ret ≠ MPG123_NEW_FORMAT -> ret ≠ MPG123_OK ->
  bytes <= Z.of_nat (length out) ->
  handleRead k m out ret bytes =
    Result (pcm out bytes)
      (Completed (Some (Error ("mpg123_read() failed: " +:+ pretty ret) None)))
      m.
Proof.
  intros Hd Hn Hf Ho Hb. rewrite handleRead_pcm by done.
  unfold handleRead. simpl.
  rewrite (proj2 (Z.eqb_neq _ _) Hd), (proj2 (Z.eqb_neq _ _) Hn),
    (proj2 (Z.eqb_neq _ _) Hf). simpl.
  destruct (Z.eqb_spec MPG123_OK ret); [congruence|].
  unfold after, done. simpl. by rewrite app_nil_r.
Qed.

(** C8, as the code has it.  A chunk whose feed call does not answer
    [MPG123_OK] ends with the feed error, which carries the code, and no
    read was issued for it; and a read status that is none of DONE,
    NEED_MORE, NEW_FORMAT and OK makes [handleRead] end the chunk with the
    read error, which carries the code.  In the run of a chunk, a read
    that answers such a status, with no more bytes than the buffer holds,
    ends the chunk with the read error when its result reaches
    [handleRead]; when the metadata call of line 78 fails, the chunk ends
    with the error of that call instead, and the status of the read is
    never looked at.  Line 78 is reached when the new-ID3 bit is clear,
    where C8 and the specification have no metadata call. *)
Theorem feed_and_read_failures
    (fuel : nat) (m : M) (chunk : Buffer)
    (k : M -> result M) (out : Buffer) (ret bytes : Z) :
  ((mpg123_feed m chunk (length chunk)).1 ≠ MPG123_OK ->
   let '(ret, m') := mpg123_feed m chunk (length chunk) in
   _transform fuel m chunk =
     Result [CallFeed chunk]
       (Completed (Some (Error ("mpg123_feed() failed: " +:+ pretty ret) None)))
       m')
  /\
  (ret ≠ MPG123_DONE -> ret ≠ MPG123_NEED_MORE ->
   ret ≠ MPG123_NEW_FORMAT -> ret ≠ MPG123_OK ->
   bytes <= Z.of_nat (length out) ->
   handleRead k m out ret bytes =
     Result (pcm out bytes)
       (Completed (Some (Error ("mpg123_read() failed: " +:+ pretty ret) None)))
       m)
  /\
  (forall evs fuel' m1,
     comes_to_read (_transform fuel m chunk) evs fuel' m1 ->
     rd_ret (reply_at m1) ≠ MPG123_DONE ->
     rd_ret (reply_at m1) ≠ MPG123_NEED_MORE ->
     rd_ret (reply_at m1) ≠ MPG123_NEW_FORMAT ->
     rd_ret (reply_at m1) ≠ MPG123_OK ->
     rd_bytes (reply_at m1) <= Z.of_nat safeBuffer ->
     _transform fuel m chunk =
       if reaches_handleRead m1 then
         Result (evs ++ CallRead safeBuffer :: metadata_events m1
                   ++ pcm (out_at m1) (rd_bytes (reply_at m1)))
           (Completed (Some (read_error (rd_ret (reply_at m1)))))
           (engine_at_handleRead m1)
       else
         Result (evs ++ [CallRead safeBuffer; CallId3])
           (Completed (Some (id3_error m1))) (engine_at_handleRead m1)).
Proof.
  split; [|split].
  - unfold _transform. destruct (mpg123_feed _ _ _) as [r m']. simpl.
    intros Hne. destruct (Z.eqb_spec MPG123_OK r) as [E|_]; [congruence|done].
  - apply handleRead_failure.
  - intros evs fuel' m1 Hrun Hd Hn Hf Ho Hb. rewrite Hrun.
    rewrite read_pass.
    destruct (reaches_handleRead m1) eqn:Hreach.
    + rewrite handleRead_failure by (done || by rewrite length_out_at).
      unfold after, read_error. cbn [events status engine app].
      by f_equal.
    + destruct (skips_handleRead m1 Hreach) as (_ & _ & -> & _).
      unfold after, done. cbn [events status engine app].
      by rewrite ?app_nil_r.
Qed.

End Facts.

#[local] Existing Instance small.

Lemma id3_fetched_iff_flag_clear_witness :
  CallId3 ∈ events (read (binding := small) 1
                      (replies [ReadReply 0 0 0 []])) <->
  Z.land 0 1 = 0.
Proof.
  apply (id3_fetched_iff_flag_clear (binding := small)
           (replies [ReadReply 0 0 0 []])).
  reflexivity.
Defined.

Lemma new_format_emitted_before_next_read_witness :
  let m := replies [ReadReply (-11) 2 1 [Byte.x07; Byte.x08];
                    ReadReply 0 1 1 [Byte.x09]; ReadReply (-12) 0 1 []] in
  let m' := replies [ReadReply 0 1 1 [Byte.x09]; ReadReply (-12) 0 1 []] in
  let out := [Byte.x01; Byte.x02; Byte.x03; Byte.x04] in
  let format := Emit "format" (OfFormat (Format 208 44100 2)) in
  handleRead (read 1) m out (-11) 2 =
    after [Push [Byte.x01; Byte.x02]; CallGetformat; format] (read 1 m)
  /\ (exists evs fuel' m1,
        comes_to_read (_transform 9 m [Byte.xff]) evs fuel' m1 /\
        rd_ret (reply_at m1) = -11 /\
        reaches_handleRead m1 = true /\
        [CallFeed [Byte.xff]; CallRead 4; Push [Byte.x07; Byte.x08];
         CallGetformat] =
          evs ++ CallRead 4 :: metadata_events m1
              ++ pcm (out_at m1) (rd_bytes (reply_at m1)) ++ [CallGetformat] /\
        OfFormat (Format 208 44100 2) =
          OfFormat (mpg123_getformat (engine_at_handleRead m1)) /\
        [CallRead 4; Push [Byte.x09]; CallRead 4] =
          events (read fuel' (engine_at_handleRead m1)) /\
        CallRead 4 = CallRead 4)
  /\ _transform 9 m [Byte.xff] =
       after [CallFeed [Byte.xff]; CallRead 4; Push [Byte.x07; Byte.x08];
              CallGetformat; format]
         (read 8 m').
Proof.
  pose proof (new_format_emitted_before_next_read (binding := small) 9
                (replies [ReadReply (-11) 2 1 [Byte.x07; Byte.x08];
                          ReadReply 0 1 1 [Byte.x09];
                          ReadReply (-12) 0 1 []])
                [Byte.xff] (read 1)
                [Byte.x01; Byte.x02; Byte.x03; Byte.x04] 2)
    as (H1 & H2 & H3).
  split; [|split].
  - exact (H1 ltac:(vm_compute; lia) ltac:(vm_compute; lia)
             ltac:(simpl; lia)).
  - exact (H2 [CallFeed [Byte.xff]; CallRead 4; Push [Byte.x07; Byte.x08];
               CallGetformat]
             (OfFormat (Format 208 44100 2))
             [CallRead 4; Push [Byte.x09]; CallRead 4] eq_refl).
  - exact (H3 [CallFeed [Byte.xff]] 8%nat
             (replies [ReadReply (-11) 2 1 [Byte.x07; Byte.x08];
                       ReadReply 0 1 1 [Byte.x09];
                       ReadReply (-12) 0 1 []])
             eq_refl ltac:(vm_compute; lia) ltac:(vm_compute; lia)
             eq_refl ltac:(simpl; lia)).
Defined.

(** The failing inputs of C3: a read whose flags have the new-ID3 bit
    clear is followed by the metadata call and an [id3v1] event, and one
    whose flags have it set is not. *)
Example id3_test_inverted :
  events (read 1 (replies [ReadReply 0 0 0 []])) =
    [CallRead 4; CallId3;
     Emit "id3v1" (OfId3 (Some (Id3 (Some "TAG") "title")))]
  /\ events (read 1 (replies [ReadReply 0 0 1 []])) = [CallRead 4].
Proof. vm_compute. done. Qed.

(** A chunk whose reads answer NEW_FORMAT, OK with two bytes, OK with one
    byte and DONE (flags as the code wants them for no metadata call): one
    [format] event, before the decoded bytes, which come in order. *)
Example format_then_pcm :
  let r :=
    _transform 9
      (replies [ReadReply (-11) 0 1 []; ReadReply 0 2 1 [Byte.x01; Byte.x02];
                ReadReply 0 1 1 [Byte.x03]; ReadReply (-12) 0 1 []])
      [Byte.xff] in
  events r =
    [CallFeed [Byte.xff]; CallRead 4; CallGetformat;
     Emit "format" (OfFormat (Format 208 44100 2));
     CallRead 4; Push [Byte.x01; Byte.x02];
     CallRead 4; Push [Byte.x03]; CallRead 4]
  /\ status r = Completed None.
Proof. vm_compute. done. Qed.

(** The failing input of C7 and C8: a read whose flags have the new-ID3
    bit clear, so that line 78 makes the metadata call, and a metadata call
    that fails.  The NEW_FORMAT of the read brings no [format] event and
    no further read, and the status -1 of the read no read error: the
    chunk ends with the error of the metadata call. *)
Example status_lost_to_failed_id3 :
  let failing rd := Script 0 [rd] [(-1, None)] (Format 208 44100 2) in
  let lost :=
    Result [CallFeed [Byte.xff]; CallRead 4; CallId3]
      (Completed (Some (Error "mpg123_id3() failed: -1" None)))
      (Script 0 [] [] (Format 208 44100 2)) in
  _transform 5 (failing (ReadReply (-11) 0 0 [])) [Byte.xff] = lost
  /\ _transform 5 (failing (ReadReply (-1) 0 0 [])) [Byte.xff] = lost.
Proof. vm_compute. done. Qed.

Lemma feed_and_read_failures_witness :
  let refused := Script (-1) [] [] (Format 208 44100 2) in
  let m := replies [ReadReply (-1) 2 1 [Byte.x07; Byte.x08]] in
  let out := [Byte.x01; Byte.x02; Byte.x03; Byte.x04] in
  _transform 3 refused [Byte.x00] =
    Result [CallFeed [Byte.x00]]
      (Completed (Some (Error "mpg123_feed() failed: -1" None))) refused
  /\ handleRead (read 1) m out (-1) 2 =
     Result [Push [Byte.x01; Byte.x02]]
       (Completed (Some (Error "mpg123_read() failed: -1" None))) m
  /\ _transform 3 m [Byte.x00] =
     Result [CallFeed [Byte.x00]; CallRead 4; Push [Byte.x07; Byte.x08]]
       (Completed (Some (Error "mpg123_read() failed: -1" None)))
       (replies []).
Proof.
  split; [|split].
  - exact (proj1 (feed_and_read_failures (binding := small) 3
                    (Script (-1) [] [] (Format 208 44100 2)) [Byte.x00]
                    (read 1) [] 0 0)
             ltac:(vm_compute; lia)).
  - exact (proj1 (proj2 (feed_and_read_failures (binding := small) 0
                           (replies [ReadReply (-1) 2 1 [Byte.x07; Byte.x08]])
                           [] (read 1)
                           [Byte.x01; Byte.x02; Byte.x03; Byte.x04] (-1) 2))
             ltac:(vm_compute; lia) ltac:(vm_compute; lia)
             ltac:(vm_compute; lia) ltac:(vm_compute; lia)
             ltac:(simpl; lia)).
  - exact (proj2 (proj2 (feed_and_read_failures (binding := small) 3
                           (replies [ReadReply (-1) 2 1 [Byte.x07; Byte.x08]])
                           [Byte.x00] (read 1) [] 0 0))
             [CallFeed [Byte.x00]] 2%nat
             (replies [ReadReply (-1) 2 1 [Byte.x07; Byte.x08]])
             eq_refl
             ltac:(vm_compute; lia) ltac:(vm_compute; lia)
             ltac:(vm_compute; lia) ltac:(vm_compute; lia)
             ltac:(simpl; lia)).
Defined.

End DecoderFacts.

(** * Properties of the Encoder stage *)

Module EncoderFacts.
Import Encoder BufferFacts NumFacts.

Section Facts.

Context {L : Type} {binding : Lame L}.

Lemma after_nil (r : result L) : after [] r = r.
Proof. by destruct r. Qed.

Lemma events_after (evs : list event) (r : result L) :
  events (after evs r) = evs ++ events r.
Proof. reflexivity. Qed.

(** The guard of [_init], when the initialisation goes through and when
    it does not. *)
Lemma with_init_succeeds (e : Encoder) (l : L) k :
  init_succeeds e l ->
  with_init e l k =
    after (init_events e) (k (initialised e) (engine_after_init e l)).
Proof.
  unfold init_succeeds, with_init, init_events, initialised,
    engine_after_init, _init.
  destruct (_initCalled e); simpl; [by rewrite after_nil|].
  intros [|Hok]; [done|].
  destruct (lame_init_params l (gfp e)) as [r l']. simpl in *. subst r.
  by rewrite Z.eqb_refl.
Qed.

Lemma with_init_fails (e : Encoder) (l : L) k :
  ~ init_succeeds e l ->
  with_init e l k =
    Result [CallInitParams (gfp e)]
      (Completed (Some (Error ("error initializing params: "
                               +:+ pretty (lame_init_params l (gfp e)).1)
                          None)))
      e (lame_init_params l (gfp e)).2.
Proof.
  unfold init_succeeds, with_init, _init. intros Hno.
  destruct (_initCalled e); simpl; [tauto|].
  destruct (lame_init_params l (gfp e)) as [r l']. simpl in *.
  destruct (Z.eqb_spec LAME_OKAY r); [|done]. exfalso. apply Hno. by right.
Qed.

Lemma init_succeeds_dec (e : Encoder) (l : L) :
  init_succeeds e l \/ ~ init_succeeds e l.
Proof.
  unfold init_succeeds. destruct (_initCalled e); [by left; left|].
  destruct (Z.eq_dec (lame_init_params l (gfp e)).1 LAME_OKAY);
    [by left; right|right]. intros [|]; done.
Qed.

(** C1, as the code has it: [options] is what is left of the argument
    once [bitDepth] was taken out of it, so [options.bitDepth] is
    [undefined] and none of the three format tests holds.  The constructor
    throws for every argument: the [TypeError] of the parameter pattern
    for [null], the exception of [super(options)] for stream options that
    [Transform] rejects, and [Error('unsupported PCM format!')] for
    everything else -- the supported combinations and the all-default
    construction included. *)
Theorem constructor_always_throws {stream : Transform} (arg : argument) :
  constructor arg =
    match arg with
    | Null => ThrowsTypeError
    | Undefined =>
        if Transform_accepts ∅ then
          ThrowsError (Error "unsupported PCM format!" None)
        else ThrowsOfSuper
    | Object o =>
        if Transform_accepts (rest_options o) then
          ThrowsError (Error "unsupported PCM format!" None)
        else ThrowsOfSuper
    end.
Proof.
  assert (forall o, get (rest_options o) "bitDepth" = JUndefined) as Hrest.
  { intros o. unfold get, rest_options. rewrite !lookup_delete_ne by done.
    by rewrite lookup_delete_eq. }
  destruct arg as [| |o]; [|done|]; unfold constructor.
  - change (rest_options ∅) with (∅ : options).
    destruct (Transform_accepts ∅); [|done]. cbn [negb].
    change (get ∅ "bitDepth") with JUndefined.
    cbn [loose_eq_number]. by rewrite !andb_false_r.
  - destruct (Transform_accepts (rest_options o)); [|done]. cbn [negb].
    rewrite Hrest. cbn [loose_eq_number]. by rewrite !andb_false_r.
Qed.

Lemma releases_app (evs evs' : list event) :
  releases (evs ++ evs') = (releases evs + releases evs')%nat.
Proof. unfold releases. by rewrite omap_app, length_app. Qed.

Lemma pushed_app (evs evs' : list event) :
  pushed (evs ++ evs') = pushed evs ++ pushed evs'.
Proof. apply omap_app. Qed.

Lemma submitted_app (evs evs' : list event) :
  submitted (evs ++ evs') = submitted evs ++ submitted evs'.
Proof. apply omap_app. Qed.

Lemma releases_init_events (e : Encoder) : releases (init_events e) = 0%nat.
Proof. unfold init_events. by destruct (_initCalled e). Qed.

(** The bulk encode step never closes the handle, and the identifier its
    callback tests is bound. *)
Lemma encode_no_release (e : Encoder) (l : L) (chunk : Buffer) :
  releases (events (encode e l chunk)) = 0%nat /\
  forall x, status (encode e l chunk) ≠ Thrown (ReferenceError x).
Proof.
  unfold encode, report. simpl. repeat case_match; simpl; done.
Qed.

Lemma transform_no_release (e : Encoder) (l : L) (chunk : Buffer) :
  releases (events (_transform e l chunk)) = 0%nat /\
  forall x, status (_transform e l chunk) ≠ Thrown (ReferenceError x).
Proof.
  unfold _transform.
  destruct (init_succeeds_dec e l) as [Hi|Hi].
  - rewrite with_init_succeeds by done.
    destruct (prepend_remainder _ _) as [c1 e1].
    destruct (keep_remainder _ _) as [c2 e2]. simpl.
    rewrite releases_app, releases_init_events.
    apply encode_no_release.
  - rewrite with_init_fails by done. done.
Qed.

Lemma writes_no_release (e : Encoder) (l : L) (chunks : list Buffer) :
  releases (events (writes e l chunks)) = 0%nat /\
  forall x, status (writes e l chunks) ≠ Thrown (ReferenceError x).
Proof.
  revert e l. induction chunks as [|chunk chunks IH]; intros e l; [done|].
  simpl. pose proof (transform_no_release e l chunk) as [Hr Hs].
  destruct (status (_transform e l chunk)) as [[err|]| |] eqn:E;
    try (split; [done|by rewrite E]).
  simpl. rewrite releases_app, Hr. apply IH.
Qed.

(** The two ways [_flush] ends: the initialisation failed and [done]
    got its error, with no call after it; or the flush call was made, the
    handle closed, and the test on the unbound [bytesWritten] threw. *)
Lemma flush_cases (e : Encoder) (l : L) :
  (~ init_succeeds e l /\
   events (_flush e l) = [CallInitParams (gfp e)] /\
   status (_flush e l) =
     Completed (Some (Error ("error initializing params: "
                             +:+ pretty (lame_init_params l (gfp e)).1)
                        None)) /\
   self (_flush e l) = e)
  \/
  (init_succeeds e l /\
   events (_flush e l) =
     init_events e ++ [CallFlush (gfp e) (Z.to_nat 7200); CallClose (gfp e)] /\
   status (_flush e l) = Thrown (ReferenceError "bytesWritten") /\
   self (_flush e l) = set_gfp None (initialised e)).
Proof.
  unfold _flush.
  destruct (init_succeeds_dec e l) as [Hi|Hi]; [right|left].
  - rewrite with_init_succeeds by done. split; [done|].
    destruct (lame_encode_flush_nogap _ _ _ _) as [[n data] l'].
    rewrite length_written, length_replicate.
    cbn [lookup_parameter report throw after events status self app].
    assert (gfp (initialised e) = gfp e) as ->; [|done].
    unfold initialised. by destruct (_initCalled e).
  - rewrite with_init_fails by done. done.
Qed.

(** C2, as the code has it: over a stream lifetime [lame_close] is
    called once if the lifetime reaches the callback of the flush call,
    and never otherwise.  A stream that ends with an error handed to
    [done] -- a failed initialisation in [_flush], an encode error in
    [_transform] -- has not released its handle. *)
Theorem handle_released_only_by_flush_callback
    (e : Encoder) (l : L) (chunks : list Buffer) :
  releases (events (lifetime e l chunks)) =
    match status (lifetime e l chunks) with
    | Thrown (ReferenceError _) => 1%nat
    | _ => 0%nat
    end.
Proof.
  unfold lifetime. pose proof (writes_no_release e l chunks) as [Hr Hs].
  destruct (status (writes e l chunks)) as [[err|]|[| |x]|] eqn:E;
    rewrite ?E, ?Hr; try done.
  - simpl. rewrite releases_app, Hr.
    destruct (flush_cases (self (writes e l chunks))
                (engine (writes e l chunks)))
      as [(_ & -> & -> & _)|(_ & -> & -> & _)]; [done|].
    by rewrite releases_app, releases_init_events.
  - by destruct (Hs x).
Qed.

(** C5, as the code has it: the callback of the flush call has no
    parameter, so it cannot look at the flush result.  [_flush] pushes
    nothing, and it ends either with the error of a failed initialisation
    or, once the flush call was made and the handle closed, with a
    [ReferenceError]: [done] is not called, whatever the engine
    answered. *)
Theorem flush_result_never_reported (e : Encoder) (l : L) :
  pushed (events (_flush e l)) = [] /\
  (status (_flush e l) = Thrown (ReferenceError "bytesWritten") \/
   status (_flush e l) =
     Completed (Some (Error ("error initializing params: "
                             +:+ pretty (lame_init_params l (gfp e)).1)
                        None))).
Proof.
  destruct (flush_cases e l) as [(_ & -> & -> & _)|(_ & -> & -> & _)].
  - split; [done|by right].
  - split; [|by left]. rewrite pushed_app. unfold init_events.
    by destruct (_initCalled e).
Qed.

Lemma initialised_initCalled (e : Encoder) : _initCalled (initialised e) = true.
Proof. unfold initialised. by destruct (_initCalled e) eqn:E. Qed.

Lemma initialised_blockAlign (e : Encoder) :
  blockAlign (initialised e) = effective_blockAlign e.
Proof. unfold initialised, effective_blockAlign. by destruct (_initCalled e). Qed.

Lemma initialised_remainder (e : Encoder) :
  _remainder (initialised e) = _remainder e.
Proof. unfold initialised. by destruct (_initCalled e). Qed.

(** [_transform], once the initialisation went through. *)
Lemma transform_initialised (e : Encoder) (l : L) (chunk : Buffer) :
  init_succeeds e l ->
  _transform e l chunk =
    after (init_events e)
      (let '(chunk, e') := prepend_remainder (initialised e) chunk in
       let '(chunk, e') := keep_remainder e' chunk in
       encode e' (engine_after_init e l) chunk).
Proof. intros Hi. unfold _transform. by rewrite with_init_succeeds. Qed.

(** The two remainder steps lose no byte and leave the rest of the
    object alone. *)
Lemma remainder_steps (e : Encoder) (chunk : Buffer) :
  exists aligned_part kept,
    (let '(chunk, e') := prepend_remainder e chunk in
     keep_remainder e' chunk) = (aligned_part, set_remainder kept e) /\
    aligned_part ++ default [] kept = remainder_bytes e ++ chunk.
Proof.
  unfold prepend_remainder, keep_remainder, remainder_bytes.
  destruct e as [h it ch bd sr sg ic ba [r|]]; simpl;
    match goal with |- context [js_gt0 ?x] => destruct (js_gt0 x) end;
    eexists _, _; (split; [reflexivity|]); simpl;
    by rewrite ?slice_split, ?app_nil_r.
Qed.

(** With frames of a whole number [ba] of bytes, the aligned part is the
    longest prefix of whole frames and the remainder the bytes after it. *)
Lemma remainder_steps_integral (e : Encoder) (chunk : Buffer) (ba : Z) :
  blockAlign e = of_Z ba -> 0 < ba ->
  let total := remainder_bytes e ++ chunk in
  let n := Z.of_nat (length total) in
  let k := Z.to_nat (n - n mod ba) in
  (let '(chunk, e') := prepend_remainder e chunk in
   keep_remainder e' chunk) =
  (take k total,
   set_remainder (if 0 <? n mod ba then Some (drop k total) else None) e).
Proof.
  intros Hba Hpos total n k.
  assert (Z.of_nat (length total) = n) as Hn by done.
  assert (k = Z.to_nat (n - n mod ba)) as Hk by done.
  clearbody k n.
  assert (n mod ba <= n) as Hle by (apply Z.mod_le; lia).
  assert (0 <= n mod ba < ba) as Hm by (apply Z.mod_pos_bound; lia).
  assert (forall e', blockAlign e' = of_Z ba -> _remainder e' = None ->
            keep_remainder e' total =
            (take k total,
             set_remainder
               (if 0 <? n mod ba then Some (drop k total) else None) e'))
    as Hkeep.
  { intros e' Hba' Hr'. unfold keep_remainder. rewrite Hba'.
    unfold of_nat. rewrite Hn, js_rem_integers by lia.
    unfold js_gt0, of_Z, js_sub. simpl.
    assert (Qle_bool (inject_Z (n mod ba)) 0 = negb (0 <? n mod ba)) as ->.
    { apply eq_true_iff_eq. rewrite Qle_bool_iff, negb_true_iff, Z.ltb_ge.
      change 0%Q with (inject_Z 0). by rewrite <- Zle_Qle. }
    rewrite negb_involutive. destruct (Z.ltb_spec 0 (n mod ba)).
    - assert (Qred (inject_Z n - inject_Z (n mod ba)) =
              inject_Z (n - n mod ba)) as ->.
      { apply Qred_eq_inject_Z. unfold Qminus.
        by rewrite <- inject_Z_opp, <- inject_Z_plus. }
      rewrite Qtrunc_inject_Z, slice_to, slice_from by lia. by rewrite Hk.
    - replace (n mod ba) with 0 in * by lia.
      assert (k = length total) as -> by lia.
      rewrite take_ge by done.
      destruct e'; simpl in *; by subst. }
  unfold prepend_remainder. subst total. unfold remainder_bytes in *.
  destruct e as [h it ch bd sr sg ic bl [r|]]; simpl in *.
  - by rewrite Hkeep.
  - by rewrite Hkeep.
Qed.

Lemma encode_self (e : Encoder) (l : L) (chunk : Buffer) :
  self (encode e l chunk) = e.
Proof. unfold encode, report. simpl. repeat case_match; done. Qed.

(** Behind the assertion the chunk is a whole number of frames, and the
    output buffer has the size [Buffer.alloc] made of the estimate. *)
Lemma encode_sized (e : Encoder) (l : L) (chunk : Buffer) :
  Forall (sized Qfloor 7200 (blockAlign e)) (events (encode e l chunk)).
Proof.
  unfold encode.
  destruct (js_is0 (js_rem _ _)) eqn:E0; cbn [negb]; [|by constructor].
  apply js_rem_zero_multiple in E0 as (b & Hb & Hb0 & Hmul).
  rewrite Hb. unfold of_nat. rewrite (js_div_exact _ _ Hb0 Hmul).
  set (n := Qtrunc _) in *. rewrite estimated_size. unfold Buffer_alloc.
  destruct (Qle_bool 0 _) eqn:Hq; [|by constructor].
  destruct (lame_encode_buffer _ _ _ _ _ _ _ _) as [[bw data] l'].
  rewrite length_written, length_replicate.
  cbn [after events app]. constructor.
  - exists b, n. repeat split; [done|].
    apply Qle_bool_floor in Hq.
    rewrite Z2Nat.id by done. by rewrite estimated_floor, Qfloor_scaled.
  - unfold report. simpl. repeat case_match; simpl; repeat constructor.
Qed.

Lemma sized_aligned (round : Q -> Z) (overhead : Z) (ba : num)
    (ev : event) :
  sized round overhead ba ev -> aligned ba ev.
Proof.
  destruct ev; simpl; try done.
  intros (b & n & Hb & Hmul & _). by exists b, n.
Qed.

Lemma report_submitted bw (output : Buffer) (e : Encoder) (l : L) :
  submitted (events (report bw output e l)) = [].
Proof. unfold report. repeat case_match; done. Qed.

Lemma report_self bw (output : Buffer) (e : Encoder) (l : L) :
  self (report bw output e l) = e.
Proof. unfold report. repeat case_match; done. Qed.

Lemma submitted_init_events (e : Encoder) : submitted (init_events e) = [].
Proof. unfold init_events. by destruct (_initCalled e). Qed.

(** The bulk encode of a chunk of whole frames of [ba] bytes. *)
Lemma encode_integral (e : Encoder) (l : L) (chunk : Buffer) (ba : Z) :
  blockAlign e = of_Z ba -> 0 < ba ->
  Z.of_nat (length chunk) mod ba = 0 ->
  encode e l chunk =
    let samples := Z.of_nat (length chunk) / ba in
    let size := Z.to_nat (5 * samples / 4 + 7200) in
    let '(bytesWritten, data, l') :=
      lame_encode_buffer l (gfp e) chunk (inputType e) (channels e)
        (of_Z samples) 0 size in
    after [CallEncode (gfp e) chunk (inputType e) (channels e)
             (of_Z samples) size]
      (report (Some bytesWritten) (written (replicate size Byte.x00) data)
         e l').
Proof.
  intros Hba Hpos Hmod. unfold encode. rewrite Hba. unfold of_nat.
  rewrite js_rem_integers, Hmod, js_is0_zero by lia. cbn [negb].
  rewrite js_div_integers, estimated_size by (done || lia).
  unfold Buffer_alloc.
  assert (0 <= Z.of_nat (length chunk) / ba) as Hs by (apply Z.div_pos; lia).
  rewrite (estimated_nonneg _ Hs), estimated_floor, length_replicate.
  cbv zeta.
  destruct (lame_encode_buffer _ _ _ _ _ _ _ _) as [[bw data] l'].
  by rewrite length_written, length_replicate.
Qed.

Lemma encode_integral_submitted (e : Encoder) (l : L) (chunk : Buffer)
    (ba : Z) :
  blockAlign e = of_Z ba -> 0 < ba ->
  Z.of_nat (length chunk) mod ba = 0 ->
  submitted (events (encode e l chunk)) = [chunk].
Proof.
  intros Hba Hpos Hmod. rewrite (encode_integral _ _ _ _ Hba Hpos Hmod).
  cbv zeta. destruct (lame_encode_buffer _ _ _ _ _ _ _ _) as [[bw data] l'].
  by rewrite events_after, submitted_app, report_submitted.
Qed.

(** One write, with frames of a whole number [ba] of bytes. *)
Lemma transform_integral (e : Encoder) (l : L) (chunk : Buffer) (ba : Z) :
  init_succeeds e l ->
  effective_blockAlign e = of_Z ba -> 0 < ba ->
  let total := remainder_bytes e ++ chunk in
  let n := Z.of_nat (length total) in
  let k := Z.to_nat (n - n mod ba) in
  let kept := if 0 <? n mod ba then Some (drop k total) else None in
  submitted (events (_transform e l chunk)) = [take k total] /\
  self (_transform e l chunk) = set_remainder kept (initialised e).
Proof.
  intros Hi Hba Hpos total n k kept.
  assert (n mod ba <= n) as Hle by (apply Z.mod_le; lia).
  assert (0 <= n mod ba < ba) as Hm by (apply Z.mod_pos_bound; lia).
  rewrite (transform_initialised _ _ _ Hi).
  pose proof (remainder_steps_integral (initialised e) chunk ba) as Hsteps.
  rewrite initialised_blockAlign in Hsteps. specialize (Hsteps Hba Hpos).
  unfold remainder_bytes in Hsteps. rewrite initialised_remainder in Hsteps.
  cbv zeta in Hsteps. fold (remainder_bytes e) in Hsteps.
  fold total in Hsteps. fold n in Hsteps. fold k in Hsteps. fold kept in Hsteps.
  destruct (prepend_remainder (initialised e) chunk) as [c1 e1].
  rewrite Hsteps. cbn [after events self].
  rewrite submitted_app, submitted_init_events, encode_self. split; [|done].
  apply (encode_integral_submitted _ _ _ ba); [|done|].
  - destruct (initialised e) eqn:E. simpl.
    pose proof (initialised_blockAlign e) as Hb. rewrite E in Hb.
    simpl in Hb. by rewrite Hb.
  - rewrite length_take.
    replace (Z.of_nat (k `min` length total)) with (n - n mod ba)
      by (unfold k; lia).
    assert (n - n mod ba = n / ba * ba) as ->
      by (rewrite (Z.mod_eq n ba) by lia; lia).
    apply Z.mod_mul. lia.
Qed.

Lemma effective_set_remainder (kept : option Buffer) (e : Encoder) :
  effective_blockAlign (set_remainder kept e) = effective_blockAlign e.
Proof. reflexivity. Qed.

Lemma effective_initialised (e : Encoder) :
  effective_blockAlign (initialised e) = effective_blockAlign e.
Proof.
  unfold effective_blockAlign at 1.
  by rewrite initialised_initCalled, initialised_blockAlign.
Qed.

Lemma blockAlign_set_remainder (kept : option Buffer) (e : Encoder) :
  blockAlign (set_remainder kept e) = blockAlign e.
Proof. reflexivity. Qed.

(** A write keeps the block alignment, and sizes its output buffer by
    rounding the estimate down. *)
Lemma transform_sized (e : Encoder) (l : L) (chunk : Buffer) :
  Forall (sized Qfloor 7200 (effective_blockAlign e))
    (events (_transform e l chunk)) /\
  (status (_transform e l chunk) = Completed None ->
   effective_blockAlign (self (_transform e l chunk)) =
   effective_blockAlign e).
Proof.
  destruct (init_succeeds_dec e l) as [Hi|Hi].
  - rewrite (transform_initialised _ _ _ Hi).
    destruct (remainder_steps (initialised e) chunk)
      as (c & kept & Hsteps & _).
    destruct (prepend_remainder (initialised e) chunk) as [c1 e1].
    rewrite Hsteps, events_after. cbn [after self]. rewrite encode_self.
    split.
    + apply Forall_app. split.
      * unfold init_events. destruct (_initCalled e); by repeat constructor.
      * rewrite <- initialised_blockAlign,
          <- (blockAlign_set_remainder kept). apply encode_sized.
    + intros _. by rewrite effective_set_remainder, effective_initialised.
  - unfold _transform. rewrite (with_init_fails _ _ _ Hi). simpl.
    split; [by repeat constructor|done].
Qed.

Lemma writes_sized (e : Encoder) (l : L) (chunks : list Buffer) :
  Forall (sized Qfloor 7200 (effective_blockAlign e))
    (events (writes e l chunks)) /\
  (status (writes e l chunks) = Completed None ->
   effective_blockAlign (self (writes e l chunks)) =
   effective_blockAlign e).
Proof.
  revert e l. induction chunks as [|chunk chunks IH]; intros e l.
  { by split; [constructor|]. }
  simpl. destruct (transform_sized e l chunk) as [Hs He].
  destruct (status (_transform e l chunk)) as [[err|]| |] eqn:E;
    try by (split; [done|by rewrite E]).
  specialize (IH (self (_transform e l chunk)) (engine (_transform e l chunk))).
  rewrite (He eq_refl) in IH. destruct IH as [IHs IHe].
  rewrite events_after. split; [by apply Forall_app|done].
Qed.

Lemma flush_sized (e : Encoder) (l : L) (ba : num) :
  Forall (sized Qfloor 7200 ba) (events (_flush e l)).
Proof.
  destruct (flush_cases e l) as [(_ & -> & _)|(_ & -> & _)].
  - by repeat constructor.
  - apply Forall_app. split.
    + unfold init_events. destruct (_initCalled e); by repeat constructor.
    + by repeat constructor.
Qed.

(** C9, amended: over a stream lifetime, every bulk encode call gets an
    output buffer of [floor (1.25 * sampleCount) + 7200] bytes, where
    [sampleCount] is the whole number of frames in the aligned chunk
    ([Buffer.alloc] drops the fraction of the estimate
    [1.25 * sampleCount + 7200]; nothing rounds it up), and the flush call
    gets a buffer of 7200 bytes. *)
Theorem output_buffer_sizes (e : Encoder) (l : L) (chunks : list Buffer) :
  Forall (sized Qfloor 7200 (effective_blockAlign e))
    (events (lifetime e l chunks)).
Proof.
  unfold lifetime. destruct (writes_sized e l chunks) as [Hs _].
  destruct (status (writes e l chunks)) as [[err|]| |]; try done.
  rewrite events_after. apply Forall_app. split; [done|]. apply flush_sized.
Qed.

Lemma mod_scenario (ba : Z) : 3 < ba -> (ba * 10 + 3) mod ba = 3.
Proof.
  intros H. rewrite Z.add_comm, (Z.mul_comm ba), Z.mod_add by lia.
  apply Z.mod_small. lia.
Qed.

(** C4: every bulk encode call of a stream lifetime receives a whole
    number of frames of [bitDepth / 8 * channels] bytes.  And with frames
    of [ba] bytes, a stream that holds no remainder and is written
    [ba * 10 + 3] bytes submits the first [ba * 10] of them and keeps the
    last 3 in the Remainder Buffer; written [ba - 3] bytes next, it
    submits the 3 kept bytes followed by the new ones, [ba] bytes in all,
    and the Remainder Buffer is empty. *)
Theorem encode_calls_take_whole_frames
    (e : Encoder) (l : L) (chunks : list Buffer) (ba : Z)
    (first second : Buffer) :
  Forall (aligned (effective_blockAlign e)) (events (lifetime e l chunks))
  /\
  (effective_blockAlign e = of_Z ba -> 3 < ba ->
   init_succeeds e l -> _remainder e = None ->
   Z.of_nat (length first) = ba * 10 + 3 ->
   Z.of_nat (length second) = ba - 3 ->
   let r1 := _transform e l first in
   let r2 := _transform (self r1) (engine r1) second in
   let frames := Z.to_nat (ba * 10) in
   submitted (events r1) = [take frames first] /\
   _remainder (self r1) = Some (drop frames first) /\
   length (drop frames first) = 3%nat /\
   submitted (events r2) = [drop frames first ++ second] /\
   Z.of_nat (length (drop frames first ++ second)) = ba /\
   _remainder (self r2) = None).
Proof.
  split.
  { unfold lifetime. destruct (writes_sized e l chunks) as [Hs _].
    pose proof (Forall_impl _ _ _ Hs (sized_aligned _ _ _)) as Ha.
    destruct (status (writes e l chunks)) as [[err|]| |]; try done.
    rewrite events_after. apply Forall_app. split; [done|].
    apply (Forall_impl _ _ _ (flush_sized _ _ _) (sized_aligned _ _ _)). }
  intros Hba Hgt Hi Hnone Hfirst Hsecond r1 r2 frames.
  assert (remainder_bytes e = []) as Hrb by (unfold remainder_bytes; by rewrite Hnone).
  destruct (transform_integral e l first ba Hi Hba ltac:(lia)) as [Hsub Hself].
  rewrite Hrb in Hsub, Hself. simpl in Hsub, Hself.
  rewrite Hfirst, mod_scenario in Hsub, Hself by done.
  replace (ba * 10 + 3 - 3) with (ba * 10) in * by lia.
  change (0 <? 3) with true in Hself. cbv iota in Hself.
  assert (length (drop frames first) = 3%nat) as Hlen
    by (rewrite length_drop; unfold frames; lia).
  assert (init_succeeds (self r1) (engine r1)) as Hi2.
  { left. unfold r1. rewrite Hself. simpl. apply initialised_initCalled. }
  assert (effective_blockAlign (self r1) = of_Z ba) as Hba2.
  { unfold r1. rewrite Hself.
    by rewrite effective_set_remainder, effective_initialised. }
  destruct (transform_integral (self r1) (engine r1) second ba Hi2 Hba2
              ltac:(lia)) as [Hsub2 Hself2].
  assert (remainder_bytes (self r1) = drop frames first) as Hrb2
    by (unfold r1; by rewrite Hself).
  rewrite Hrb2 in Hsub2, Hself2.
  assert (Z.of_nat (length (drop frames first ++ second)) = ba) as Hlen2
    by (rewrite length_app; lia).
  rewrite Hlen2, Z.mod_same, Z.sub_0_r in Hsub2, Hself2 by lia.
  change (0 <? 0) with false in Hself2. cbv iota in Hself2.
  rewrite take_ge in Hsub2 by lia.
  repeat split; try done.
  - unfold r1. by rewrite Hself.
  - unfold r2. by rewrite Hself2.
Qed.

(** A chunk shorter than one frame is kept whole. *)
Lemma remainder_steps_small (e : Encoder) (chunk : Buffer) (b : Q) :
  blockAlign e = Some b ->
  let total := remainder_bytes e ++ chunk in
  (inject_Z (Z.of_nat (length total)) < b)%Q ->
  (let '(chunk, e') := prepend_remainder e chunk in
   keep_remainder e' chunk) =
  ([], set_remainder (if 0 <? Z.of_nat (length total) then Some total
                      else None) e).
Proof.
  intros Hba total Hlt.
  assert (forall e', blockAlign e' = Some b -> _remainder e' = None ->
            keep_remainder e' total =
            ([], set_remainder (if 0 <? Z.of_nat (length total)
                                then Some total else None) e'))
    as Hkeep.
  { intros e' Hba' Hr'. unfold keep_remainder. rewrite Hba'.
    unfold of_nat. rewrite js_rem_small by (done || lia).
    unfold js_gt0, of_Z, js_sub. simpl.
    assert (Qle_bool (inject_Z (Z.of_nat (length total))) 0 =
            negb (0 <? Z.of_nat (length total))) as ->.
    { apply eq_true_iff_eq. rewrite Qle_bool_iff, negb_true_iff, Z.ltb_ge.
      change 0%Q with (inject_Z 0). by rewrite <- Zle_Qle. }
    rewrite negb_involutive.
    destruct (Z.ltb_spec 0 (Z.of_nat (length total))).
    - assert (Qred (inject_Z (Z.of_nat (length total))
                    - inject_Z (Z.of_nat (length total))) = inject_Z 0) as ->.
      { apply Qred_eq_inject_Z. change (inject_Z 0) with 0%Q. ring. }
      rewrite Qtrunc_inject_Z, slice_to, slice_from by lia. done.
    - assert (total = []) as -> by (apply length_zero_iff_nil; lia).
      destruct e'; simpl in *; by subst. }
  unfold prepend_remainder. subst total. unfold remainder_bytes in *.
  destruct e as [h it ch bd sr sg ic bl [r|]]; simpl in *.
  - by rewrite Hkeep.
  - by rewrite Hkeep.
Qed.

(** The bulk encode of no frame at all. *)
Lemma encode_empty (e : Encoder) (l : L) (b : Q) :
  blockAlign e = Some b -> (0 < b)%Q ->
  encode e l [] =
    let size := Z.to_nat 7200 in
    let '(bytesWritten, data, l') :=
      lame_encode_buffer l (gfp e) [] (inputType e) (channels e)
        (of_Z 0) 0 size in
    after [CallEncode (gfp e) [] (inputType e) (channels e) (of_Z 0) size]
      (report (Some bytesWritten) (written (replicate size Byte.x00) data)
         e l').
Proof.
  intros Hba Hpos. unfold encode. rewrite Hba.
  change (of_nat (length [])) with (of_Z 0).
  rewrite js_rem_small, js_is0_zero by done. cbn [negb].
  assert (js_div (of_Z 0) (Some b) = of_Z 0) as ->.
  { unfold js_div, of_Z. simpl.
    destruct (Qeq_bool b 0) eqn:E.
    { apply Qeq_bool_iff in E. rewrite E in Hpos.
      by apply Qlt_irrefl in Hpos. }
    done. }
  rewrite estimated_size. unfold Buffer_alloc.
  rewrite (estimated_nonneg 0), estimated_floor, length_replicate by lia.
  change (5 * 0 / 4 + 7200) with 7200. cbv zeta.
  destruct (lame_encode_buffer _ _ _ _ _ _ _ _) as [[bw data] l'].
  by rewrite length_written, length_replicate.
Qed.

(** C10: a write that, together with the stored remainder, is shorter
    than one frame keeps all these bytes as the new remainder and still
    makes one bulk encode call, on an empty chunk with a sample count of
    0; when the engine answers 0 to it, the write completes without an
    error and pushes nothing. *)
Theorem short_write_kept_and_encoded_empty
    (e : Encoder) (l : L) (chunk : Buffer) (b : Q) :
  init_succeeds e l ->
  effective_blockAlign e = Some b ->
  (inject_Z (Z.of_nat (length (remainder_bytes e ++ chunk))) < b)%Q ->
  let r := _transform e l chunk in
  let answer :=
    (lame_encode_buffer (engine_after_init e l) (gfp e) [] (inputType e)
       (channels e) (of_Z 0) 0 (Z.to_nat 7200)).1.1 in
  remainder_bytes (self r) = remainder_bytes e ++ chunk /\
  (exists rest,
     events r =
       init_events e ++
       CallEncode (gfp e) [] (inputType e) (channels e) (of_Z 0)
         (Z.to_nat 7200) :: rest /\
     submitted rest = []) /\
  (answer = 0 -> status r = Completed None /\ pushed (events r) = []).
Proof.
  intros Hi Hba Hlt r answer. subst r answer.
  assert (0 < b)%Q as Hpos.
  { eapply Qle_lt_trans; [|exact Hlt]. change 0%Q with (inject_Z 0).
    rewrite <- Zle_Qle. lia. }
  rewrite (transform_initialised _ _ _ Hi).
  pose proof (remainder_steps_small (initialised e) chunk b) as Hsteps.
  rewrite initialised_blockAlign in Hsteps. specialize (Hsteps Hba).
  unfold remainder_bytes in Hsteps. rewrite initialised_remainder in Hsteps.
  fold (remainder_bytes e) in Hsteps. specialize (Hsteps Hlt).
  destruct (prepend_remainder (initialised e) chunk) as [c1 e1].
  rewrite Hsteps.
  set (e2 := set_remainder _ (initialised e)).
  assert (gfp e2 = gfp e /\ inputType e2 = inputType e /\
          channels e2 = channels e) as (Hg & Hit & Hch).
  { unfold e2, initialised. by destruct (_initCalled e). }
  assert (blockAlign e2 = Some b) as Hba2
    by (unfold e2; by rewrite blockAlign_set_remainder, initialised_blockAlign).
  rewrite (encode_empty e2 _ b Hba2 Hpos).
  cbv zeta. rewrite Hg, Hit, Hch.
  destruct (lame_encode_buffer _ _ _ _ _ _ _ _) as [[bw data] l'].
  cbn [fst]. rewrite !events_after.
  cbn [after self status]. rewrite report_self.
  split; [|split].
  - unfold e2, remainder_bytes. simpl.
    destruct (Z.ltb_spec 0 (Z.of_nat (length (default [] (_remainder e) ++ chunk))));
      [done|].
    symmetry. apply length_zero_iff_nil. lia.
  - eexists. split; [reflexivity|]. apply report_submitted.
  - intros ->. unfold report. simpl. split; [done|].
    rewrite !pushed_app. unfold init_events. by destruct (_initCalled e).
Qed.

Lemma flush_leaves_remainder (e : Encoder) (l : L) :
  remainder_bytes (self (_flush e l)) = remainder_bytes e /\
  submitted (events (_flush e l)) = [].
Proof.
  destruct (flush_cases e l) as [(_ & -> & _ & ->)|(_ & -> & _ & ->)].
  - done.
  - split.
    + unfold remainder_bytes. simpl. by rewrite initialised_remainder.
    + by rewrite submitted_app, submitted_init_events.
Qed.

Lemma whole_frames_split (n1 m ba : Z) :
  0 < ba -> 0 <= n1 -> 0 <= m ->
  let k1 := n1 - n1 mod ba in
  let n2 := n1 - k1 + m in
  (n1 + m) - (n1 + m) mod ba = k1 + (n2 - n2 mod ba) /\
  0 <= k1 <= n1 /\ 0 <= n2 - n2 mod ba <= n2.
Proof.
  intros Hba Hn Hm k1 n2.
  assert (0 <= n1 mod ba < ba) by (apply Z.mod_pos_bound; lia).
  assert (n1 mod ba <= n1) by (apply Z.mod_le; lia).
  assert (0 <= n2 mod ba < ba) by (apply Z.mod_pos_bound; lia).
  assert (n2 mod ba <= n2) by (apply Z.mod_le; lia).
  assert ((n1 + m) mod ba = n2 mod ba) as E.
  { replace (n1 + m) with (n2 + n1 / ba * ba).
    - apply Z.mod_add. lia.
    - unfold n2, k1. rewrite (Z.mod_eq n1 ba) by lia. lia. }
  rewrite E. unfold n2, k1 in *. lia.
Qed.

(** What a run of writes submits and keeps depends on the total input
    only: with frames of a whole number [ba] of bytes, the chunks
    submitted make up the longest prefix of whole frames, and the bytes
    after it are in the Remainder Buffer. *)
Lemma writes_total (e : Encoder) (l : L) (chunks : list Buffer) (ba : Z) :
  effective_blockAlign e = of_Z ba -> 0 < ba ->
  Z.of_nat (length (remainder_bytes e)) < ba ->
  status (writes e l chunks) = Completed None ->
  let total := remainder_bytes e ++ concat chunks in
  let n := Z.of_nat (length total) in
  let k := Z.to_nat (n - n mod ba) in
  concat (submitted (events (writes e l chunks))) = take k total /\
  remainder_bytes (self (writes e l chunks)) = drop k total.
Proof.
  intros Hba Hpos. revert e l Hba.
  induction chunks as [|chunk chunks IH]; intros e l Hba Hlt Hst; cbv zeta.
  - simpl. rewrite app_nil_r, Z.mod_small, Z.sub_diag by lia.
    by rewrite drop_0.
  - simpl in Hst |- *.
    destruct (status (_transform e l chunk)) as [[err|]| |] eqn:E;
      try (rewrite E in Hst; discriminate).
    destruct (init_succeeds_dec e l) as [Hi|Hi]; cycle 1.
    { unfold _transform in E. by rewrite (with_init_fails _ _ _ Hi) in E. }
    destruct (transform_integral e l chunk ba Hi Hba Hpos) as [Hsub Hself].
    set (t1 := remainder_bytes e ++ chunk) in *.
    set (n1 := Z.of_nat (length t1)) in *.
    set (k1 := Z.to_nat (n1 - n1 mod ba)) in *.
    assert (0 <= n1 mod ba < ba) as Hm by (apply Z.mod_pos_bound; lia).
    assert (n1 mod ba <= n1) as Hle by (apply Z.mod_le; lia).
    assert (remainder_bytes (self (_transform e l chunk)) = drop k1 t1)
      as Hrb.
    { rewrite Hself. unfold remainder_bytes. simpl.
      destruct (Z.ltb_spec 0 (n1 mod ba)); [done|].
      rewrite drop_ge; [done|]. unfold k1, n1 in *. lia. }
    assert (effective_blockAlign (self (_transform e l chunk)) = of_Z ba)
      as Hba1
      by (by rewrite Hself, effective_set_remainder, effective_initialised).
    specialize (IH (self (_transform e l chunk))
                  (engine (_transform e l chunk)) Hba1).
    rewrite Hrb in IH. rewrite length_drop in IH.
    specialize (IH ltac:(unfold k1, n1 in *; lia) Hst). cbv zeta in IH.
    destruct IH as [IHs IHr].
    rewrite events_after. cbn [after self].
    rewrite submitted_app, concat_app, Hsub, IHs, IHr.
    cbn [concat]. rewrite app_nil_r.
    replace (remainder_bytes e ++ chunk ++ concat chunks)
      with (t1 ++ concat chunks) by (unfold t1; by rewrite app_assoc).
    remember (concat chunks) as rest eqn:Hrest.
    destruct (whole_frames_split n1 (Z.of_nat (length rest)) ba)
      as (Hk & Hk1 & Hk2); [lia..|]. cbv zeta in Hk, Hk1, Hk2.
    assert (Z.of_nat (length (drop k1 t1 ++ rest)) =
            n1 - (n1 - n1 mod ba) + Z.of_nat (length rest)) as ->
      by (rewrite length_app, length_drop; unfold k1, n1 in *; lia).
    assert (Z.of_nat (length (t1 ++ rest)) = n1 + Z.of_nat (length rest))
      as -> by (rewrite length_app; unfold n1; lia).
    rewrite Hk, Z2Nat.inj_add by lia. fold k1.
    rewrite <- take_take_drop, <- drop_drop.
    rewrite (take_app_le t1 rest k1), (drop_app_le t1 rest k1)
      by (unfold k1, n1 in *; lia).
    done.
Qed.

Lemma initialised_fields (e : Encoder) (kept : option Buffer) :
  let e' := set_remainder kept (initialised e) in
  gfp e' = gfp e /\ inputType e' = inputType e /\ channels e' = channels e.
Proof. unfold initialised. by destruct (_initCalled e). Qed.

(** One write, with frames of a whole number [ba] of bytes, in full. *)
Lemma transform_integral_bulk (e : Encoder) (l : L) (chunk : Buffer)
    (ba : Z) :
  init_succeeds e l ->
  effective_blockAlign e = of_Z ba -> 0 < ba ->
  let total := remainder_bytes e ++ chunk in
  let n := Z.of_nat (length total) in
  let k := Z.to_nat (n - n mod ba) in
  let kept := if 0 <? n mod ba then Some (drop k total) else None in
  let samples := Z.of_nat (length (take k total)) / ba in
  let size := Z.to_nat (5 * samples / 4 + 7200) in
  _transform e l chunk =
    after (init_events e)
      (let '(bytesWritten, data, l') :=
         bulk e ba (engine_after_init e l) (take k total) in
       after [CallEncode (gfp e) (take k total) (inputType e) (channels e)
                (of_Z samples) size]
         (report (Some bytesWritten)
            (written (replicate size Byte.x00) data)
            (set_remainder kept (initialised e)) l')).
Proof.
  intros Hi Hba Hpos total n k kept samples size.
  assert (n mod ba <= n) as Hle by (apply Z.mod_le; lia).
  assert (0 <= n mod ba < ba) as Hm by (apply Z.mod_pos_bound; lia).
  rewrite (transform_initialised _ _ _ Hi).
  pose proof (remainder_steps_integral (initialised e) chunk ba) as Hsteps.
  rewrite initialised_blockAlign in Hsteps. specialize (Hsteps Hba Hpos).
  unfold remainder_bytes in Hsteps. rewrite initialised_remainder in Hsteps.
  cbv zeta in Hsteps. fold (remainder_bytes e) in Hsteps.
  fold total in Hsteps. fold n in Hsteps. fold k in Hsteps. fold kept in Hsteps.
  destruct (prepend_remainder (initialised e) chunk) as [c1 e1].
  rewrite Hsteps. f_equal.
  destruct (initialised_fields e kept) as (Hg & Hit & Hch).
  rewrite (encode_integral _ _ _ ba).
  - cbv zeta. unfold bulk. by rewrite Hg, Hit, Hch.
  - by rewrite blockAlign_set_remainder, initialised_blockAlign.
  - done.
  - rewrite length_take.
    replace (Z.of_nat (k `min` length total)) with (n - n mod ba)
      by (unfold k, n in *; lia).
    assert (n - n mod ba = n / ba * ba) as ->
      by (rewrite (Z.mod_eq n ba) by lia; lia).
    apply Z.mod_mul. lia.
Qed.

Lemma pushed_init_events (e : Encoder) : pushed (init_events e) = [].
Proof. unfold init_events. by destruct (_initCalled e). Qed.

Lemma whole_frames_aligned (total : Buffer) (ba : Z) :
  0 < ba ->
  let n := Z.of_nat (length total) in
  Z.of_nat (length (take (Z.to_nat (n - n mod ba)) total)) mod ba = 0.
Proof.
  intros Hpos n.
  assert (n mod ba <= n) as Hle by (apply Z.mod_le; lia).
  assert (0 <= n mod ba < ba) as Hm by (apply Z.mod_pos_bound; lia).
  rewrite length_take.
  replace (Z.of_nat (Z.to_nat (n - n mod ba) `min` length total))
    with (n - n mod ba) by (unfold n in *; lia).
  assert (n - n mod ba = n / ba * ba) as ->
    by (rewrite (Z.mod_eq n ba) by lia; lia).
  apply Z.mod_mul. lia.
Qed.

(** With a streaming engine, what a run of writes pushes is what one
    bulk encode call on all the whole frames of the total input writes,
    and the engine ends in the state that call leaves. *)
Lemma writes_streaming (e : Encoder) (l : L) (chunks : list Buffer)
    (ba : Z) :
  effective_blockAlign e = of_Z ba -> 0 < ba ->
  Z.of_nat (length (remainder_bytes e)) < ba ->
  status (writes e l chunks) = Completed None ->
  streaming e ba ->
  let total := remainder_bytes e ++ concat chunks in
  let n := Z.of_nat (length total) in
  let k := Z.to_nat (n - n mod ba) in
  let r := writes e l chunks in
  let '(bytesWritten, data, l') :=
    bulk e ba (engine_after_init e l) (take k total) in
  concat (pushed (events r)) = bulk_output ba (take k total) bytesWritten data
  /\ engine_after_init (self r) (engine r) = l'.
Proof.
  intros Hba Hpos. revert e l Hba.
  induction chunks as [|chunk chunks IH]; intros e l Hba Hlt Hst Hstream;
    cbv zeta.
  - simpl. rewrite app_nil_r, Z.mod_small, Z.sub_diag by lia.
    change (take (Z.to_nat 0) _) with (@nil Byte.byte).
    destruct Hstream as (Hunit & _ & _).
    specialize (Hunit (engine_after_init e l)).
    destruct (bulk e ba (engine_after_init e l) []) as [[n d] l'].
    by destruct Hunit as [-> ->].
  - pose proof (writes_total e l (chunk :: chunks) ba Hba Hpos Hlt Hst)
      as Htotal. cbv zeta in Htotal.
    simpl in Hst, Htotal |- *.
    destruct (status (_transform e l chunk)) as [[err|]| |] eqn:E;
      try (rewrite E in Hst; discriminate).
    destruct (init_succeeds_dec e l) as [Hi|Hi]; cycle 1.
    { unfold _transform in E. by rewrite (with_init_fails _ _ _ Hi) in E. }
    pose proof (transform_integral_bulk e l chunk ba Hi Hba Hpos) as Heq.
    cbv zeta in Heq.
    set (t1 := remainder_bytes e ++ chunk) in *.
    set (n1 := Z.of_nat (length t1)) in *.
    set (k1 := Z.to_nat (n1 - n1 mod ba)) in *.
    assert (0 <= n1 mod ba < ba) as Hm by (apply Z.mod_pos_bound; lia).
    assert (n1 mod ba <= n1) as Hle by (apply Z.mod_le; lia).
    destruct Hstream as (Hunit & Hnonneg & Hhom).
    pose proof (whole_frames_aligned t1 ba Hpos) as Ha1. cbv zeta in Ha1.
    fold n1 in Ha1. fold k1 in Ha1.
    pose proof (Hnonneg (engine_after_init e l) (take k1 t1) Ha1) as Hn1.
    destruct (bulk e ba (engine_after_init e l) (take k1 t1))
      as [[b1 d1] l1] eqn:Eb1. simpl in Hn1.
    set (e1 := set_remainder _ (initialised e)) in Heq.
    assert (self (_transform e l chunk) = e1 /\
            engine (_transform e l chunk) = l1 /\
            concat (pushed (events (_transform e l chunk))) =
              bulk_output ba (take k1 t1) b1 d1) as (Hself & Heng & Hpush).
    { rewrite Heq. unfold report, bulk_output.
      destruct (Z.ltb_spec b1 0); [lia|].
      rewrite !events_after, !pushed_app, pushed_init_events.
      destruct (0 <? b1); simpl; by rewrite ?app_nil_r. }
    destruct (initialised_fields e
                (if 0 <? n1 mod ba then Some (drop k1 t1) else None))
      as (Hg & Hit & Hch). cbv zeta in Hg, Hit, Hch. fold e1 in Hg, Hit, Hch.
    assert (bulk e1 ba = bulk e ba) as Hbulk
      by (unfold bulk; by rewrite Hg, Hit, Hch).
    assert (remainder_bytes e1 = drop k1 t1) as Hrb.
    { unfold e1, remainder_bytes. simpl.
      destruct (Z.ltb_spec 0 (n1 mod ba)); [done|].
      rewrite drop_ge; [done|]. unfold k1, n1 in *. lia. }
    assert (effective_blockAlign e1 = of_Z ba) as Hba1
      by (unfold e1; by rewrite effective_set_remainder, effective_initialised).
    assert (streaming e1 ba) as Hstream1
      by (unfold streaming; rewrite Hbulk; by repeat split).
    rewrite Hself, Heng in Hst, Htotal |- *.
    specialize (IH e1 l1 Hba1). rewrite Hrb, length_drop in IH.
    specialize (IH ltac:(unfold k1, n1 in *; lia) Hst Hstream1).
    cbv zeta in IH.
    assert (engine_after_init e1 l1 = l1) as Hl1.
    { unfold engine_after_init, e1. simpl. by rewrite initialised_initCalled. }
    rewrite Hl1, Hbulk in IH.
    rewrite events_after. cbn [after self engine].
    rewrite pushed_app, concat_app, Hpush.
    remember (concat chunks) as rest eqn:Hrest.
    replace (remainder_bytes e ++ chunk ++ rest) with (t1 ++ rest)
      in * by (unfold t1; by rewrite app_assoc).
    destruct (whole_frames_split n1 (Z.of_nat (length rest)) ba)
      as (Hk & Hk1 & Hk2); [lia..|]. cbv zeta in Hk, Hk1, Hk2.
    assert (Z.of_nat (length (drop k1 t1 ++ rest)) =
            n1 - (n1 - n1 mod ba) + Z.of_nat (length rest)) as Hlen2
      by (rewrite length_app, length_drop; unfold k1, n1 in *; lia).
    assert (Z.of_nat (length (t1 ++ rest)) = n1 + Z.of_nat (length rest))
      as Hlen by (rewrite length_app; unfold n1; lia).
    rewrite Hlen2 in IH. rewrite Hlen, Hk, Z2Nat.inj_add by lia. fold k1.
    set (k2 := Z.to_nat (n1 - (n1 - n1 mod ba) + Z.of_nat (length rest) -
                 (n1 - (n1 - n1 mod ba) + Z.of_nat (length rest)) mod ba))
      in *.
    rewrite <- take_take_drop, (take_app_le t1 rest k1),
      (drop_app_le t1 rest k1) by (unfold k1, n1 in *; lia).
    pose proof (whole_frames_aligned (drop k1 t1 ++ rest) ba Hpos) as Ha2.
    cbv zeta in Ha2. rewrite Hlen2 in Ha2. fold k2 in Ha2.
    specialize (Hhom (engine_after_init e l) (take k1 t1)
                  (take k2 (drop k1 t1 ++ rest)) Ha1 Ha2).
    rewrite Eb1 in Hhom.
    destruct (bulk e ba l1 (take k2 (drop k1 t1 ++ rest)))
      as [[b2 d2] l2].
    destruct (bulk e ba (engine_after_init e l)
                (take k1 t1 ++ take k2 (drop k1 t1 ++ rest)))
      as [[b d] l'].
    destruct Hhom as [-> ->]. destruct IH as [-> ->]. done.
Qed.

(** C6, amended: what a run of writes hands to the engine and what it
    keeps depend on the total input only, so they are the same for every
    chunking of it.  With frames of a whole number [ba] of bytes and every
    write completing, the chunks submitted to bulk encode make up, in
    order, the longest prefix of whole frames of the total input, and the
    Remainder Buffer then holds the bytes after that prefix; [_flush]
    leaves them there and submits nothing: the bytes short of a frame at
    the end of the stream are neither encoded nor cleared.  And when the
    engine encodes its input as one stream, the output pushed by the
    writes is the output of a single bulk encode call on that prefix, and
    the engine reaches the flush in the state that call leaves. *)
Theorem writes_depend_on_total_input
    (e : Encoder) (l : L) (chunks : list Buffer) (ba : Z) :
  effective_blockAlign e = of_Z ba -> 0 < ba ->
  Z.of_nat (length (remainder_bytes e)) < ba ->
  status (writes e l chunks) = Completed None ->
  let total := remainder_bytes e ++ concat chunks in
  let n := Z.of_nat (length total) in
  let k := Z.to_nat (n - n mod ba) in
  let r := writes e l chunks in
  concat (submitted (events r)) = take k total /\
  remainder_bytes (self r) = drop k total /\
  remainder_bytes (self (lifetime e l chunks)) = drop k total /\
  submitted (events (lifetime e l chunks)) = submitted (events r) /\
  (streaming e ba ->
   let '(bytesWritten, data, l') :=
     bulk e ba (engine_after_init e l) (take k total) in
   concat (pushed (events r)) =
     bulk_output ba (take k total) bytesWritten data /\
   engine_after_init (self r) (engine r) = l').
Proof.
  intros Hba Hpos Hlt Hst total n k r. subst r.
  destruct (writes_total e l chunks ba Hba Hpos Hlt Hst) as [Hsub Hrem].
  split; [done|]. split; [done|].
  unfold lifetime. rewrite Hst.
  destruct (flush_leaves_remainder (self (writes e l chunks))
              (engine (writes e l chunks))) as [Hfr Hfs].
  cbn [after self]. rewrite events_after, submitted_app, Hfs, app_nil_r, Hfr.
  split; [done|]. split; [done|].
  intros Hstream. by apply writes_streaming.
Qed.

End Facts.

(** ** The scripted engines *)

#[local] Existing Instance scripted.

Lemma framer_output (chunk : Buffer) :
  let n := Z.to_nat (Z.of_nat (length chunk) / 4) in
  bulk_output 4 chunk (Z.of_nat n) (replicate n Byte.x2a) =
  replicate n Byte.x2a.
Proof.
  intros n. unfold bulk_output.
  assert (0 <= Z.of_nat (length chunk) / 4) as Hs by (apply Z.div_pos; lia).
  destruct (Z.ltb_spec 0 (Z.of_nat n)) as [Hn|Hn].
  - assert (0 <= 5 * (Z.of_nat (length chunk) / 4) / 4) as H5
      by (apply Z.div_pos; lia).
    assert (Z.of_nat (length chunk) / 4 <= 5 * (Z.of_nat (length chunk) / 4) / 4)
      as Hle by (apply Z.div_le_lower_bound; lia).
    rewrite slice_to by (rewrite length_written, length_replicate; lia).
    rewrite Nat2Z.id.
    rewrite <- (length_replicate n Byte.x2a) at 1.
    apply written_prefix. rewrite !length_replicate. lia.
  - by replace n with 0%nat by lia.
Qed.

Lemma framer_bulk (e : Encoder) (frames : nat) (chunk : Buffer) :
  let n := Z.to_nat (Z.of_nat (length chunk) / 4) in
  bulk (binding := framer) e 4 frames chunk =
  (Z.of_nat n, replicate n Byte.x2a, (frames + n)%nat).
Proof.
  intros n. unfold bulk. cbn [lame_encode_buffer framer ToInteger of_Z].
  by rewrite Qtrunc_inject_Z.
Qed.

(** The engine [framer] encodes its input as one stream. *)
Lemma framer_streaming (e : Encoder) : streaming (binding := framer) e 4.
Proof.
  split; [|split].
  - intros frames. rewrite framer_bulk. simpl. by rewrite Nat.add_0_r.
  - intros frames c _. rewrite framer_bulk. simpl. lia.
  - intros frames a b Ha Hb. rewrite !framer_bulk, !framer_output.
    assert (Z.of_nat (length (a ++ b)) / 4 =
            Z.of_nat (length a) / 4 + Z.of_nat (length b) / 4) as E.
    { rewrite length_app, Nat2Z.inj_add.
      rewrite (Z.div_mod (Z.of_nat (length a)) 4) at 1 by lia.
      rewrite Ha, Z.add_0_r, Z.mul_comm, Z.add_comm, Z.div_add by lia. lia. }
    assert (0 <= Z.of_nat (length a) / 4) by (apply Z.div_pos; lia).
    assert (0 <= Z.of_nat (length b) / 4) by (apply Z.div_pos; lia).
    rewrite E, Z2Nat.inj_add by lia.
    split; [lia|]. by rewrite replicate_add.
Qed.

(** The failing inputs of C2: a flush whose initialisation fails, and a
    write whose bulk encode answers an error, end the stream with the
    handle still open. *)
Example flush_after_failed_init_keeps_handle_open :
  let r := lifetime stereo16 refusing [] in
  status r =
    Completed (Some (Error "error initializing params: -1" None)) /\
  releases (events r) = 0%nat /\ closes (engine r) = 0%nat /\
  gfp (self r) = Some 1%nat.
Proof. vm_compute. done. Qed.

Example encode_error_keeps_handle_open :
  let r := lifetime stereo16 (Script 0 [(-1, [])] (0, []) 0)
             [replicate 4 Byte.x2a] in
  status r = Completed (Some (Error "output buffer too small" (Some (-1)))) /\
  releases (events r) = 0%nat /\ closes (engine r) = 0%nat /\
  gfp (self r) = Some 1%nat.
Proof. vm_compute. done. Qed.

(** The failing input of C5: the engine answers 5 bytes to the flush
    call; nothing is pushed and [done] is not called. *)
Example flush_output_dropped :
  let r := _flush stereo16 (Script 0 [] (5, replicate 5 Byte.xff) 0) in
  status r = Thrown (ReferenceError "bytesWritten") /\
  pushed (events r) = [] /\ closes (engine r) = 1%nat.
Proof. vm_compute. done. Qed.

(** C6, refuted as stated: three bytes written to a 16-bit stereo stream
    are still in the Remainder Buffer after the flush, and no bulk encode
    call nor any pushed buffer carried them. *)
Lemma remainder_survives_flush :
  let r := lifetime stereo16 quiet [[Byte.x01; Byte.x02; Byte.x03]] in
  remainder_bytes (self r) ≠ [] /\
  concat (submitted (events r)) = [] /\ pushed (events r) = [].
Proof. vm_compute. done. Qed.

(** C9, refuted as stated: a stream written no frame and then one frame
    gets output buffers of 7200 and 7201 bytes, and no fixed overhead makes
    these [ceil (1.25 * 0) + overhead] and [ceil (1.25 * 1) + overhead]. *)
Lemma output_buffer_not_rounded_up :
  ~ exists overhead : Z,
      Forall (sized Qceiling overhead (effective_blockAlign stereo16))
        (events (lifetime stereo16 quiet [[]; replicate 4 Byte.x2a])).
Proof.
  intros [overhead H]. revert H.
  assert (events (lifetime stereo16 quiet [[]; replicate 4 Byte.x2a]) =
          [CallInitParams (Some 1%nat);
           CallEncode (Some 1%nat) [] 0 (JNum 2) (of_Z 0) (Z.to_nat 7200);
           CallEncode (Some 1%nat) (replicate 4 Byte.x2a) 0 (JNum 2) (of_Z 1)
             (Z.to_nat 7201);
           CallFlush (Some 1%nat) (Z.to_nat 7200);
           CallClose (Some 1%nat)]) as -> by (vm_compute; reflexivity).
  intros H. apply Forall_cons in H as [_ H].
  apply Forall_cons in H as [H0 H]. apply Forall_cons in H as [H1 _].
  destruct H0 as (b0 & n0 & _ & _ & Hn0 & Hsize0).
  destruct H1 as (b1 & n1 & _ & _ & Hn1 & Hsize1).
  injection Hn0 as Hn0. injection Hn1 as Hn1. subst n0 n1.
  rewrite Z2Nat.id in Hsize0, Hsize1 by lia.
  change (Qceiling ((5 # 4) * inject_Z 0)) with 0 in Hsize0.
  change (Qceiling ((5 # 4) * inject_Z 1)) with 2 in Hsize1.
  lia.
Qed.

Lemma encode_calls_take_whole_frames_witness :
  let first := replicate 43 Byte.x2a in
  let second := [Byte.x07] in
  let r1 := _transform stereo16 quiet first in
  let r2 := _transform (self r1) (engine r1) second in
  Forall (aligned (of_Z 4)) (events (lifetime stereo16 quiet [first; second]))
  /\ submitted (events r1) = [take 40 first]
  /\ _remainder (self r1) = Some (drop 40 first)
  /\ length (drop 40 first) = 3%nat
  /\ submitted (events r2) = [drop 40 first ++ second]
  /\ Z.of_nat (length (drop 40 first ++ second)) = 4
  /\ _remainder (self r2) = None.
Proof.
  split.
  - apply (proj1 (encode_calls_take_whole_frames stereo16 quiet
                    [replicate 43 Byte.x2a; [Byte.x07]] 4 [] [])).
  - apply (proj2 (encode_calls_take_whole_frames stereo16 quiet [] 4
                    (replicate 43 Byte.x2a) [Byte.x07]));
      try reflexivity; try lia.
    right; reflexivity.
Defined.

Lemma short_write_kept_and_encoded_empty_witness :
  let chunk := [Byte.x01; Byte.x02; Byte.x03] in
  let r := _transform stereo16 quiet chunk in
  remainder_bytes (self r) = chunk /\
  (exists rest,
     events r =
       [CallInitParams (Some 1%nat);
        CallEncode (Some 1%nat) [] 0 (JNum 2) (of_Z 0) (Z.to_nat 7200)]
       ++ rest /\
     submitted rest = []) /\
  (0 = 0 -> status r = Completed None /\ pushed (events r) = []).
Proof.
  exact (short_write_kept_and_encoded_empty stereo16 quiet
           [Byte.x01; Byte.x02; Byte.x03] (4 # 1)
           (or_intror eq_refl) eq_refl eq_refl).
Defined.

Lemma writes_depend_on_total_input_witness :
  let chunks :=
    [[Byte.x01; Byte.x02; Byte.x03];
     [Byte.x04; Byte.x05; Byte.x06; Byte.x07; Byte.x08; Byte.x09]] in
  let total := concat chunks in
  let r := writes (binding := framer) stereo16 0%nat chunks in
  concat (submitted (events r)) = take 8 total /\
  remainder_bytes (self r) = [Byte.x09] /\
  remainder_bytes (self (lifetime (binding := framer) stereo16 0%nat chunks))
    = [Byte.x09] /\
  submitted (events (lifetime (binding := framer) stereo16 0%nat chunks)) =
    submitted (events r) /\
  concat (pushed (events r)) = [Byte.x2a; Byte.x2a] /\
  engine r = 2%nat.
Proof.
  pose proof (writes_depend_on_total_input (binding := framer) stereo16 0%nat
                [[Byte.x01; Byte.x02; Byte.x03];
                 [Byte.x04; Byte.x05; Byte.x06; Byte.x07; Byte.x08; Byte.x09]]
                4 eq_refl eq_refl eq_refl eq_refl)
    as (H1 & H2 & H3 & H4 & H5).
  specialize (H5 (framer_streaming stereo16)).
  split; [exact H1|]. split; [exact H2|]. split; [exact H3|].
  split; [exact H4|]. exact H5.
Defined.

End EncoderFacts.

(** * Properties of the property surface *)

Module SurfaceFacts.
Import Stdlib.Strings.Ascii Encoder Surface.

Local Open Scope char_scope.

(** Induction over a string two characters at a time, as [toCamelCase]
    consumes it. *)
Lemma string_pair_ind (P : string -> Prop) :
  P EmptyString ->
  (forall a, P (String a EmptyString)) ->
  (forall a b s, P s -> P (String b s) -> P (String a (String b s))) ->
  forall s, P s.
Proof.
  intros H0 H1 H2 s.
  assert (P s /\ forall a, P (String a s)) as [H _]; [|exact H].
  induction s as [|b s [IH1 IH2]]; split; auto.
Qed.

Lemma capital_letter (b : ascii) :
  capital (String "_" (String b EmptyString)) = String (upper b) EmptyString.
Proof.
  unfold capital. cbn [toUpperCase]. change (upper "_") with "_".
  cbn [remove_first]. by change (Ascii.eqb "_" "_") with true.
Qed.

Lemma upper_letter (b : ascii) : is_letter b = true -> is_upper (upper b) = true.
Proof.
  destruct b as [[] [] [] [] [] [] [] []]; vm_compute; congruence.
Qed.

Lemma upper_not_lower (b : ascii) : is_upper b = true -> is_lower b = false.
Proof.
  destruct b as [[] [] [] [] [] [] [] []]; vm_compute; congruence.
Qed.

Lemma upper_not_underscore (b : ascii) :
  is_upper b = true -> Ascii.eqb b "_" = false.
Proof.
  destruct b as [[] [] [] [] [] [] [] []]; vm_compute; congruence.
Qed.

Lemma lower_letter (b : ascii) : is_lower b = true -> is_letter b = true.
Proof. unfold is_letter. by intros ->. Qed.

Lemma letter_not_underscore (b : ascii) :
  is_letter b = true -> Ascii.eqb b "_" = false.
Proof.
  destruct b as [[] [] [] [] [] [] [] []]; vm_compute; congruence.
Qed.

(** The two equations of [toCamelCase] on a string of two characters or
    more. *)
Lemma toCamelCase_match (b : ascii) (s : string) :
  is_letter b = true ->
  toCamelCase (String "_" (String b s)) = String (upper b) (toCamelCase s).
Proof.
  intros Hb. cbn [toCamelCase]. change (Ascii.eqb "_" "_") with true.
  rewrite Hb. cbn [andb]. by rewrite capital_letter.
Qed.

Lemma toCamelCase_copy (a b : ascii) (s : string) :
  Ascii.eqb a "_" && is_letter b = false ->
  toCamelCase (String a (String b s)) = String a (toCamelCase (String b s)).
Proof. intros H. cbn [toCamelCase]. by rewrite H. Qed.

Lemma match_or_copy (a b : ascii) :
  (a = "_" /\ is_letter b = true) \/ Ascii.eqb a "_" && is_letter b = false.
Proof.
  destruct (Ascii.eqb_spec a "_") as [->|]; destruct (is_letter b); auto.
Qed.

(** The first character of the result: the one of the argument, or a
    capital that took the place of an underscore. *)
Lemma toCamelCase_head (b : ascii) (s : string) :
  exists h t, toCamelCase (String b s) = String h t /\
    (h = b \/ (b = "_" /\ is_upper h = true)).
Proof.
  destruct s as [|c s]; [by eexists _, _; split; [|left]|].
  destruct (match_or_copy b c) as [[-> Hc]|Hcopy].
  - rewrite toCamelCase_match by done. eexists _, _. split; [done|].
    right. split; [done|]. by apply upper_letter.
  - rewrite toCamelCase_copy by done. eexists _, _. split; [done|]. by left.
Qed.

Lemma underscore_before_cons (p : ascii -> bool) (a b : ascii) (s : string) :
  underscore_before p (String a (String b s)) =
  Ascii.eqb a "_" && p b || underscore_before p (String b s).
Proof. reflexivity. Qed.

(** X15: [toCamelCase] leaves a name as it is exactly when no underscore
    in it is directly followed by a letter. *)
Theorem toCamelCase_fixed_point (name : string) :
  toCamelCase name = name <-> underscore_before is_letter name = false.
Proof.
  induction name as [|a|a b s IHs IHbs] using string_pair_ind; [done..|].
  rewrite underscore_before_cons.
  destruct (match_or_copy a b) as [[-> Hb]|Hcopy].
  - rewrite toCamelCase_match by done. rewrite Hb.
    change (Ascii.eqb "_" "_") with true. cbn [andb orb].
    split; [|done]. intros E. injection E as E _.
    apply upper_letter, upper_not_underscore in Hb. rewrite E in Hb.
    by vm_compute in Hb.
  - rewrite toCamelCase_copy by done. rewrite Hcopy. cbn [orb].
    split.
    + intros [= E]. by apply IHbs.
    + intros E. f_equal. by apply IHbs.
Qed.

(** In the result of [toCamelCase] no underscore is directly followed by
    a lower-case letter. *)
Lemma toCamelCase_no_underscore_before_lower (name : string) :
  underscore_before is_lower (toCamelCase name) = false.
Proof.
  induction name as [|a|a b s IHs IHbs] using string_pair_ind; [done..|].
  destruct (match_or_copy a b) as [[-> Hb]|Hcopy].
  - rewrite toCamelCase_match by done.
    destruct (toCamelCase s) as [|h t] eqn:E; [done|].
    rewrite underscore_before_cons.
    by rewrite (upper_not_underscore _ (upper_letter _ Hb)).
  - rewrite toCamelCase_copy by done.
    destruct (toCamelCase_head b s) as (h & t & E & Hh).
    rewrite E in IHbs |- *. rewrite underscore_before_cons.
    rewrite IHbs, orb_false_r.
    destruct (Ascii.eqb_spec a "_") as [->|]; [|done]. cbn [andb].
    cbn [andb] in Hcopy. destruct Hh as [->|[_ Hh]].
    + destruct (is_lower b) eqn:El; [|done].
      by rewrite (lower_letter _ El) in Hcopy.
    + by apply upper_not_lower.
Qed.

(** X16: the result of [toCamelCase] is free of underscores exactly when
    every underscore of the name is directly followed by a letter. *)
Theorem toCamelCase_underscore_free (name : string) :
  occurs "_" (toCamelCase name) = false <->
  forall before after,
    name = before +:+ String "_" after ->
    exists b rest, after = String b rest /\ is_letter b = true.
Proof.
  induction name as [|a|a b s IHs IHbs] using string_pair_ind.
  - split; [|done]. intros _ [|c before] after E; discriminate.
  - cbn [toCamelCase occurs]. rewrite orb_false_r. split.
    + intros Ha [|c before] after E.
      * injection E as -> _. by vm_compute in Ha.
      * injection E as _ E. destruct before; discriminate.
    + intros H. destruct (Ascii.eqb_spec a "_") as [->|]; [|done].
      destruct (H EmptyString EmptyString eq_refl) as (? & ? & ? & _).
      discriminate.
  - destruct (match_or_copy a b) as [[-> Hb]|Hcopy].
    + rewrite toCamelCase_match by done. cbn [occurs].
      rewrite (upper_not_underscore _ (upper_letter _ Hb)). cbn [orb].
      rewrite IHs. split.
      * intros H [|c [|d before]] after E.
        -- injection E as <-. by eexists _, _.
        -- injection E as _ E _. subst b. by vm_compute in Hb.
        -- injection E as _ _ E. by apply (H before).
      * intros H before after ->.
        by apply (H (String "_" (String b before))).
    + rewrite toCamelCase_copy by done. cbn [occurs].
      fold (occurs "_" (toCamelCase (String b s))).
      split.
      * intros H. apply orb_false_elim in H as [Ha H].
        pose proof (proj1 IHbs H) as H'. intros [|c before] after E.
        -- injection E as -> _. by vm_compute in Ha.
        -- injection E as _ E. by apply (H' before).
      * intros H. apply orb_false_intro.
        -- destruct (Ascii.eqb_spec a "_") as [->|]; [|done].
           destruct (H EmptyString (String b s) eq_refl)
             as (b' & rest & [= <- _] & Hb).
           cbn [andb] in Hcopy. congruence.
        -- apply IHbs. intros before after E.
           apply (H (String a before)). by rewrite E.
Qed.

(** X17: [toCamelCase] drops at most every second character: the result
    is no longer than the name and at least half as long. *)
Theorem toCamelCase_length (name : string) :
  (String.length (toCamelCase name) <= String.length name
   <= 2 * String.length (toCamelCase name))%nat.
Proof.
  induction name as [|a|a b s IHs IHbs] using string_pair_ind;
    [simpl; lia..|].
  destruct (match_or_copy a b) as [[-> Hb]|Hcopy].
  - rewrite toCamelCase_match by done. cbn [String.length]. lia.
  - rewrite toCamelCase_copy by done. cbn [String.length] in *. lia.
Qed.

Lemma append_cons (a : ascii) (s t : string) :
  String a s +:+ t = String a (s +:+ t).
Proof. reflexivity. Qed.

Lemma append_empty (t : string) : EmptyString +:+ t = t.
Proof. reflexivity. Qed.

(** X18: a name can be converted in pieces, as long as no piece ends in
    an underscore: [toCamelCase] distributes over the concatenation of
    [front] and [back] when [front] does not end in an underscore. *)
Theorem toCamelCase_append (front back : string) :
  not_ending_in "_" front = true ->
  toCamelCase (front +:+ back) = toCamelCase front +:+ toCamelCase back.
Proof.
  induction front as [|a|a b s IHs IHbs] using string_pair_ind.
  - done.
  - cbn [not_ending_in]. intros Ha%negb_true_iff.
    rewrite append_cons, append_empty. destruct back as [|c back]; [done|].
    rewrite toCamelCase_copy by (by rewrite Ha). done.
  - intros Hend. rewrite !append_cons.
    assert (not_ending_in "_" (String b s) = true) as Hbs by done.
    destruct (match_or_copy a b) as [[-> Hb]|Hcopy].
    + rewrite !toCamelCase_match by done. rewrite append_cons, IHs; [done|].
      destruct s; [done|exact Hbs].
    + rewrite !toCamelCase_copy by done.
      by rewrite append_cons, <- IHbs, append_cons.
Qed.

Local Close Scope char_scope.

(** A result without capitals is the name itself. *)
Lemma toCamelCase_without_capitals (name : string) :
  (forall c, occurs c (toCamelCase name) = true -> is_upper c = false) ->
  toCamelCase name = name.
Proof.
  induction name as [|a|a b s IHs IHbs] using string_pair_ind; [done..|].
  destruct (match_or_copy a b) as [[-> Hb]|Hcopy].
  - rewrite toCamelCase_match by done. intros H.
    specialize (H (upper b)). cbn [occurs] in H.
    rewrite Ascii.eqb_refl in H. specialize (H eq_refl).
    by rewrite (upper_letter _ Hb) in H.
  - rewrite toCamelCase_copy by done. intros H. f_equal. apply IHbs.
    intros c Hc. apply H. cbn [occurs]. rewrite Hc. apply orb_true_r.
Qed.

Lemma constructor_lower (c : ascii) :
  occurs c "constructor" = true -> is_upper c = false.
Proof.
  destruct c as [[] [] [] [] [] [] [] []]; vm_compute; congruence.
Qed.

(** The entries of [PROPS]. *)
Lemma PROPS_lookup (name prop : string) :
  PROPS !! name = Some prop ->
  prop ∈ ["bitRate"; "channels"; "writeVbrTag"; "sampleRate"; "outSampleRate"].
Proof.
  unfold PROPS. rewrite !lookup_insert_Some, lookup_empty.
  intros H.
  repeat (destruct H as [[_ <-]|[_ H]]; [by repeat constructor|]). done.
Qed.

(** No property is named like a method of the class. *)
Lemma property_name_not_method (name prop : string) :
  property_name name = Some prop -> prop ∉ method_names.
Proof.
  unfold property_name.
  destruct (PROPS !! name) as [p|] eqn:E.
  - apply PROPS_lookup in E.
    assert ((p ∉ method_names) /\ String.eqb p EmptyString = false)
      as [Hp ->].
    { apply list_elem_of_In in E. simpl in E.
      repeat (destruct E as [<-|E];
              [split; [|done]; unfold method_names;
               rewrite !not_elem_of_cons;
               repeat split; try discriminate; apply not_elem_of_nil|]).
      done. }
    by intros [= <-].
  - case_bool_decide as Hm; [done|]. intros [= <-] Hin.
    apply list_elem_of_In in Hin. simpl in Hin.
    destruct Hin as [E'|[E'|[E'|[E'|[]]]]].
    + apply Hm. rewrite <- (toCamelCase_without_capitals name).
      * rewrite <- E'. unfold Object_prototype_members. by repeat constructor.
      * rewrite <- E'. apply constructor_lower.
    + pose proof (toCamelCase_no_underscore_before_lower name) as H.
      by rewrite <- E' in H.
    + pose proof (toCamelCase_no_underscore_before_lower name) as H.
      by rewrite <- E' in H.
    + pose proof (toCamelCase_no_underscore_before_lower name) as H.
      by rewrite <- E' in H.
Qed.


Lemma Encoder_prototype_methods : keeps_methods Encoder_prototype.
Proof.
  intros q. unfold Encoder_prototype, method_names.
  rewrite !lookup_insert_Some, lookup_empty, !elem_of_cons, elem_of_nil.
  split.
  - intros H. repeat (destruct H as [[<- _]|[_ H]]; [auto 10|]). done.
  - intros [->|[->|[->|[->|[]]]]];
      repeat (first [by left|right; split; [done|]]).
Qed.

(** One step of the loop keeps the methods and does not throw. *)
Lemma define_accessor_keeps_methods (proto : prototype) (key : string) :
  keeps_methods proto ->
  define_accessor proto key ≠ TypeError /\
  forall proto', define_accessor proto key = Prototype proto' ->
                 keeps_methods proto'.
Proof.
  intros Hm. unfold define_accessor.
  destruct (is_accessor_key key); cbn [negb]; [|by split; [|intros ? [= <-]]].
  destruct (property_name _) as [prop|] eqn:Eprop; [|done].
  apply property_name_not_method in Eprop.
  assert (forall d, d ≠ Method -> keeps_methods (<[prop := d]> proto)) as Hins.
  { intros d Hd q. rewrite lookup_insert_Some. split.
    - intros [[_ ->]|[_ H]]; [done|]. by apply Hm.
    - intros Hq. right. split; [by intros ->|]. by apply Hm. }
  destruct (proto !! prop) as [[|get set]|] eqn:E.
  - exfalso. apply Eprop. by apply Hm.
  - split; [done|]. intros ? [= <-]. apply Hins. by destruct (is_getter_key key).
  - split; [done|]. intros ? [= <-]. apply Hins. by destruct (is_getter_key key).
Qed.

(** X19: whatever the keys of the binding are, defining the accessors
    does not throw the [TypeError] of [Object.defineProperty], and the
    prototype it leaves has the four methods of the class and no other:
    no accessor takes the place of [constructor], [_init], [_transform]
    or [_flush]. *)
Theorem accessors_never_replace_methods (keys : list string) :
  define_accessors Encoder_prototype keys ≠ TypeError /\
  forall proto,
    define_accessors Encoder_prototype keys = Prototype proto ->
    forall q, proto !! q = Some Method <-> q ∈ method_names.
Proof.
  pose proof Encoder_prototype_methods as Hm. revert Hm.
  generalize Encoder_prototype as proto0. intros proto0.
  revert proto0. induction keys as [|key keys IH]; intros proto0 Hm.
  { split; [done|]. by intros ? [= <-]. }
  cbn [define_accessors].
  destruct (define_accessor_keeps_methods proto0 key Hm) as [Hne Hkeep].
  destruct (define_accessor proto0 key) as [proto1| |]; [|done|done].
  apply IH. by apply Hkeep.
Qed.

Lemma backing_cons (prop : string) (getter : bool) (key : string)
    (keys : list string) :
  backing prop getter (key :: keys) =
  match backing prop getter keys with
  | Some later => Some later
  | None => if names prop getter key then Some key else None
  end.
Proof. reflexivity. Qed.

Lemma names_prop (prop : string) (getter : bool) (key : string) :
  names prop getter key = true ->
  is_accessor_key key = true /\ is_getter_key key = getter /\
  property_name (substring_from 9 key) = Some prop.
Proof.
  unfold names. rewrite !andb_true_iff, !bool_decide_eq_true. tauto.
Qed.

(** What the loop makes of one property. *)
Lemma define_accessors_lookup (prop : string) (keys : list string)
    (proto proto' : prototype) :
  define_accessors proto keys = Prototype proto' ->
  proto !! prop ≠ Some Method ->
  proto' !! prop =
    merged (proto !! prop) (backing prop true keys) (backing prop false keys).
Proof.
  revert proto. induction keys as [|key keys IH]; intros proto Hrun Hnm.
  { injection Hrun as <-. cbn [backing].
    by destruct (proto !! prop) as [[|??]|]. }
  cbn [define_accessors] in Hrun. rewrite !backing_cons.
  unfold define_accessor in Hrun. unfold names.
  destruct (is_accessor_key key); cbn [negb andb] in *.
  2: { rewrite (IH proto Hrun Hnm).
       by destruct (backing prop true keys), (backing prop false keys). }
  destruct (property_name (substring_from 9 key)) as [p|] eqn:Ep; [|done].
  destruct (decide (p = prop)) as [->|Hne].
  - rewrite (bool_decide_eq_true_2 (Some prop = Some prop)) by done.
    rewrite !andb_true_r.
    destruct (proto !! prop) as [[|get0 set0]|] eqn:E; [done| |];
      rewrite (IH _ Hrun) by (rewrite lookup_insert_eq;
                              by destruct (is_getter_key key));
      rewrite lookup_insert_eq;
      destruct (is_getter_key key); cbn [bool_decide];
      rewrite ?(bool_decide_eq_true_2 (true = true)),
        ?(bool_decide_eq_true_2 (false = false)),
        ?(bool_decide_eq_false_2 (true = false)),
        ?(bool_decide_eq_false_2 (false = true)) by done;
      by destruct (backing prop true keys), (backing prop false keys).
  - rewrite (bool_decide_eq_false_2 (Some p = Some prop)) by congruence.
    rewrite !andb_false_r.
    assert (forall d, (<[p := d]> proto) !! prop = proto !! prop) as Hother
      by (intros; by rewrite lookup_insert_ne).
    destruct (proto !! p) as [[|get0 set0]|]; [done| |];
      rewrite (IH _ Hrun) by (by rewrite Hother);
      rewrite Hother;
      by destruct (backing prop true keys), (backing prop false keys).
Qed.

(** X20: once the accessors are defined, a property has for its [get]
    the last getter key and for its [set] the last setter key of the
    binding that are given its name, in whatever order the keys come; a
    name no accessor key is given stays undefined. *)
Theorem accessor_backed_by_last_keys (keys : list string) (proto : prototype)
    (prop : string) :
  define_accessors Encoder_prototype keys = Prototype proto ->
  prop ∉ method_names ->
  proto !! prop =
    match backing prop true keys, backing prop false keys with
    | None, None => None
    | get, set => Some (Accessor get set)
    end.
Proof.
  intros Hrun Hprop.
  assert (Encoder_prototype !! prop = None) as E.
  { destruct (Encoder_prototype !! prop) as [[|get set]|] eqn:E; [| |done].
    - exfalso. apply Hprop. by apply Encoder_prototype_methods.
    - revert E. unfold Encoder_prototype.
      rewrite !lookup_insert_Some, lookup_empty. intros H.
      repeat (destruct H as [[_ H]|[_ H]]; [discriminate H|]). done. }
  rewrite (define_accessors_lookup prop keys _ _ Hrun) by (by rewrite E).
  rewrite E. by destruct (backing prop true keys), (backing prop false keys).
Qed.

Lemma toCamelCase_append_witness :
  toCamelCase ("out" +:+ "_samplerate")
    = toCamelCase "out" +:+ toCamelCase "_samplerate".
Proof. exact (toCamelCase_append "out" "_samplerate" eq_refl). Defined.

Lemma accessor_backed_by_last_keys_witness :
  sample_prototype !! "VBRQ"
    = Some (Accessor (Some "lame_get_VBR_q") (Some "lame_set_VBR_q")).
Proof.
  exact (accessor_backed_by_last_keys sample_keys sample_prototype "VBRQ"
           ltac:(vm_compute; reflexivity)
           ltac:(apply (bool_decide_eq_false_1 _); vm_compute; reflexivity)).
Defined.

End SurfaceFacts.

(** * Further properties of the Encoder stage *)

Module EncoderTraces.
Import Encoder Surface Traces BufferFacts EncoderFacts.

Section Facts.

Context {L : Type} {binding : Lame L}.

(** The three ways the bulk encode step ends. *)
Lemma encode_cases (e : Encoder) (l : L) (chunk : Buffer) :
  (events (encode e l chunk) = [] /\
   (status (encode e l chunk) = Thrown AssertionError \/
    status (encode e l chunk) = Thrown RangeError))
  \/
  exists numSamples size bytesWritten output,
    events (encode e l chunk) =
      CallEncode (gfp e) chunk (inputType e) (channels e) numSamples size
      :: (if 0 <? bytesWritten then [Push output] else []) /\
    status (encode e l chunk) =
      if bytesWritten <? 0 then
        Completed (Some (Error (ERRORS_message bytesWritten)
                           (Some bytesWritten)))
      else Completed None.
Proof.
  unfold encode.
  destruct (negb _); [left; split; [done|by left]|].
  destruct (Buffer_alloc _) as [output|]; [|left; split; [done|by right]].
  right. destruct (lame_encode_buffer _ _ _ _ _ _ _ _) as [[bw data] l'].
  cbn [lookup_parameter String.eqb Ascii.eqb Bool.eqb]. unfold report.
  eexists _, _, bw, _.
  destruct (Z.ltb_spec bw 0), (Z.ltb_spec 0 bw); try lia; split; reflexivity.
Qed.

(** The first write, in full: a failed initialisation, or the steps
    behind it. *)
Lemma transform_cases (e : Encoder) (l : L) (chunk : Buffer) :
  (~ init_succeeds e l /\
   events (_transform e l chunk) = [CallInitParams (gfp e)] /\
   status (_transform e l chunk) =
     Completed (Some (Error ("error initializing params: "
                             +:+ pretty (lame_init_params l (gfp e)).1)
                        None)) /\
   self (_transform e l chunk) = e)
  \/
  (init_succeeds e l /\
   exists aligned_part kept,
     let e' := set_remainder kept (initialised e) in
     let r := encode e' (engine_after_init e l) aligned_part in
     aligned_part ++ default [] kept = remainder_bytes e ++ chunk /\
     events (_transform e l chunk) = init_events e ++ events r /\
     status (_transform e l chunk) = status r /\
     self (_transform e l chunk) = e' /\
     (let '(chunk, e') := prepend_remainder (initialised e) chunk in
      keep_remainder e' chunk) = (aligned_part, e')).
Proof.
  destruct (init_succeeds_dec e l) as [Hi|Hi]; [right|left].
  - split; [done|]. rewrite transform_initialised by done.
    destruct (remainder_steps (initialised e) chunk)
      as (aligned_part & kept & Hsteps & Hsum).
    exists aligned_part, kept. cbv zeta.
    destruct (prepend_remainder (initialised e) chunk) as [c1 e1].
    rewrite Hsteps.
    unfold remainder_bytes in *. rewrite initialised_remainder in Hsum.
    split; [done|]. split; [done|]. split; [done|].
    split; [|done]. cbn [after self]. apply encode_self.
  - unfold _transform. rewrite with_init_fails by done. done.
Qed.

(** A write that completed without an error submitted its aligned
    part. *)
Lemma encode_completed (e : Encoder) (l : L) (chunk : Buffer) :
  status (encode e l chunk) = Completed None ->
  submitted (events (encode e l chunk)) = [chunk].
Proof.
  destruct (encode_cases e l chunk)
    as [[_ [E|E]]|(ns & size & bw & out & -> & _)];
    [by rewrite E..|].
  intros _. by destruct (0 <? bw).
Qed.

Lemma transform_conserves (e : Encoder) (l : L) (chunk : Buffer) :
  status (_transform e l chunk) = Completed None ->
  concat (submitted (events (_transform e l chunk)))
    ++ remainder_bytes (self (_transform e l chunk))
  = remainder_bytes e ++ chunk.
Proof.
  destruct (transform_cases e l chunk)
    as [(_ & _ & -> & _)|(_ & a & kept & Hsum & -> & -> & -> & _)]; [done|].
  intros Hst. rewrite submitted_app, submitted_init_events.
  rewrite (encode_completed _ _ _ Hst). cbn [app concat].
  by rewrite app_nil_r.
Qed.

(** X1: no byte is lost or reordered.  While the writes complete, the
    bytes handed to the bulk encode calls, followed by the bytes the
    object holds back, are the bytes it held back at the start followed
    by the chunks written -- whatever the block alignment is. *)
Theorem writes_conserve_bytes (e : Encoder) (l : L) (chunks : list Buffer) :
  status (writes e l chunks) = Completed None ->
  concat (submitted (events (writes e l chunks)))
    ++ remainder_bytes (self (writes e l chunks))
  = remainder_bytes e ++ concat chunks.
Proof.
  revert e l. induction chunks as [|chunk chunks IH]; intros e l.
  { intros _. cbn. by rewrite app_nil_r. }
  cbn [writes]. cbv zeta.
  pose proof (transform_conserves e l chunk) as Hone.
  destruct (status (_transform e l chunk)) as [[err|]| |] eqn:E;
    try (intros Hst; by rewrite E in Hst).
  intros Hst. cbn [after status events self] in *.
  rewrite submitted_app, concat_app, <- app_assoc.
  rewrite (IH _ _ Hst), app_assoc, (Hone eq_refl). cbn [concat].
  by rewrite <- app_assoc.
Qed.


Lemma inits_app (evs evs' : list event) :
  inits (evs ++ evs') = (inits evs + inits evs')%nat.
Proof. unfold inits. by rewrite omap_app, length_app. Qed.

Lemma inits_encode (e : Encoder) (l : L) (chunk : Buffer) :
  inits (events (encode e l chunk)) = 0%nat.
Proof.
  destruct (encode_cases e l chunk)
    as [[-> _]|(ns & size & bw & out & -> & _)]; [done|].
  by destruct (0 <? bw).
Qed.

(** A write starts with the initialisation call when it is the first,
    and makes no other. *)
Lemma transform_inits (e : Encoder) (l : L) (chunk : Buffer) :
  (exists rest,
     events (_transform e l chunk) = init_events e ++ rest /\
     inits rest = 0%nat) /\
  (status (_transform e l chunk) = Completed None ->
   _initCalled (self (_transform e l chunk)) = true).
Proof.
  destruct (transform_cases e l chunk)
    as [(Hi & -> & -> & _)|(_ & a & kept & _ & -> & -> & -> & _)].
  - split; [|done]. exists []. split; [|done].
    unfold init_events, init_succeeds in *.
    destruct (_initCalled e); [tauto|done].
  - split; [|intros _; apply initialised_initCalled].
    eexists. split; [done|]. apply inits_encode.
Qed.

Lemma writes_initialised (e : Encoder) (l : L) (chunks : list Buffer) :
  _initCalled e = true ->
  inits (events (writes e l chunks)) = 0%nat /\
  (status (writes e l chunks) = Completed None ->
   _initCalled (self (writes e l chunks)) = true).
Proof.
  revert e l. induction chunks as [|chunk chunks IH]; intros e l Hi; [done|].
  cbn [writes]. cbv zeta.
  destruct (transform_inits e l chunk) as [(rest & Hev & Hrest) Hself].
  assert (inits (events (_transform e l chunk)) = 0%nat) as Hzero.
  { rewrite Hev, inits_app, Hrest. unfold init_events. by rewrite Hi. }
  destruct (status (_transform e l chunk)) as [[err|]| |] eqn:E;
    try (split; [done|by rewrite E]).
  destruct (IH (self (_transform e l chunk)) (engine (_transform e l chunk))
              (Hself eq_refl)) as [Hw Hs].
  split; [|done]. cbn [after events]. by rewrite inits_app, Hzero, Hw.
Qed.

Lemma flush_inits (e : Encoder) (l : L) :
  exists rest,
    events (_flush e l) = init_events e ++ rest /\ inits rest = 0%nat.
Proof.
  destruct (flush_cases e l) as [(Hi & -> & _)|(_ & -> & _)].
  - exists []. split; [|done].
    unfold init_events, init_succeeds in *.
    destruct (_initCalled e); [tauto|done].
  - by eexists.
Qed.

(** X2: over a stream lifetime the parameters are initialised once, and
    before anything else is asked of the engine: the trace of an object
    that was not initialised starts with the one [lame_init_params] call
    it contains -- also when nothing is written and the call is made by
    [_flush] --, and the trace of an initialised one has none. *)
Theorem initialised_once_and_first
    (e : Encoder) (l : L) (chunks : list Buffer) :
  exists rest,
    events (lifetime e l chunks) = init_events e ++ rest /\
    inits rest = 0%nat.
Proof.
  unfold lifetime. destruct chunks as [|chunk chunks].
  { cbn [writes done status events self engine after app]. apply flush_inits. }
  cbn [writes]. cbv zeta.
  destruct (transform_inits e l chunk) as [(rest & Hev & Hrest) Hself].
  destruct (status (_transform e l chunk)) as [[err|]| |] eqn:E;
    rewrite ?E; try by exists rest.
  specialize (Hself eq_refl).
  destruct (writes_initialised _ (engine (_transform e l chunk)) chunks Hself)
    as [Hw Hs].
  cbn [after status events self engine].
  set (w := writes _ _ chunks) in *.
  assert (forall evs, inits evs = 0%nat ->
            exists rest',
              events (_transform e l chunk) ++ events w ++ evs
                = init_events e ++ rest' /\ inits rest' = 0%nat) as Hall.
  { intros evs Hevs. exists (rest ++ events w ++ evs).
    rewrite Hev, <- app_assoc. split; [done|].
    by rewrite !inits_app, Hrest, Hw, Hevs. }
  destruct (status w) as [[err|]| |] eqn:Ew.
  - destruct (Hall [] eq_refl) as (r & Hr & Hz). exists r.
    by rewrite app_nil_r in Hr.
  - destruct (flush_inits (self w) (engine w)) as (fl & Hfl & Hz).
    unfold init_events in Hfl. rewrite (Hs eq_refl) in Hfl.
    cbn [after events]. rewrite <- app_assoc, Hfl. by apply Hall.
  - destruct (Hall [] eq_refl) as (r & Hr & Hz). exists r.
    by rewrite app_nil_r in Hr.
  - destruct (Hall [] eq_refl) as (r & Hr & Hz). exists r.
    by rewrite app_nil_r in Hr.
Qed.

(** X3: how a write can end.  It calls [done()] after one bulk encode
    call and at most one push; or [done(err)] without a push, with the
    error of the failed initialisation (the chunk is dropped and the
    object unchanged) or with the error for a negative encode result; or
    it throws the [AssertionError] of the alignment check or the
    [RangeError] of [Buffer.alloc], before the engine saw the chunk.  It
    never stays pending. *)
Theorem transform_outcomes (e : Encoder) (l : L) (chunk : Buffer) :
  let r := _transform e l chunk in
  match status r with
  | Completed None =>
      length (submitted (events r)) = 1%nat /\
      (length (pushed (events r)) <= 1)%nat
  | Completed (Some err) =>
      pushed (events r) = [] /\
      ((err = Error ("error initializing params: "
                     +:+ pretty (lame_init_params l (gfp e)).1) None /\
        events r = [CallInitParams (gfp e)] /\ self r = e)
       \/
       (exists n, n < 0 /\ err = Error (ERRORS_message n) (Some n) /\
                  length (submitted (events r)) = 1%nat))
  | Thrown x =>
      (x = AssertionError \/ x = RangeError) /\
      submitted (events r) = [] /\ pushed (events r) = []
  | Pending => False
  end.
Proof.
  cbv zeta.
  destruct (transform_cases e l chunk)
    as [(_ & -> & -> & ->)|(_ & a & kept & _ & -> & -> & _)].
  { split; [done|]. left. done. }
  cbv zeta. rewrite submitted_app, pushed_app, submitted_init_events.
  assert (pushed (init_events e) = []) as ->
    by (unfold init_events; by destruct (_initCalled e)).
  cbn [app].
  destruct (encode_cases (set_remainder kept (initialised e))
              (engine_after_init e l) a)
    as [[-> [->| ->]]|(ns & size & bw & out & -> & ->)].
  - split; [by left|done].
  - split; [by right|done].
  - destruct (Z.ltb_spec bw 0) as [Hneg|Hpos].
    + destruct (Z.ltb_spec 0 bw); [lia|]. split; [done|].
      right. by exists bw.
    + destruct (0 <? bw); cbn; split; lia.
Qed.



Lemma on_handle_init_events (e : Encoder) :
  Forall (on_handle (gfp e)) (init_events e).
Proof.
  unfold init_events. destruct (_initCalled e); repeat constructor.
Qed.

(** A write asks the engine on the handle of the object, and leaves the
    handle alone. *)
Lemma transform_on_handle (e : Encoder) (l : L) (chunk : Buffer) :
  Forall (on_handle (gfp e)) (events (_transform e l chunk)) /\
  gfp (self (_transform e l chunk)) = gfp e.
Proof.
  destruct (transform_cases e l chunk)
    as [(_ & -> & _ & ->)|(_ & a & kept & _ & -> & _ & -> & _)].
  { split; [|done]. repeat constructor. }
  cbv zeta.
  destruct (initialised_fields e kept) as (Hg & Hi & Hc).
  split; [|done].
  apply Forall_app. split; [apply on_handle_init_events|].
  destruct (encode_cases (set_remainder kept (initialised e))
              (engine_after_init e l) a)
    as [[-> _]|(ns & size & bw & out & -> & _)]; [constructor|].
  constructor; [exact Hg|].
  destruct (0 <? bw); repeat constructor.
Qed.

Lemma writes_on_handle (e : Encoder) (l : L) (chunks : list Buffer) :
  Forall (on_handle (gfp e)) (events (writes e l chunks)) /\
  gfp (self (writes e l chunks)) = gfp e.
Proof.
  revert e l. induction chunks as [|chunk chunks IH]; intros e l.
  { split; [constructor|done]. }
  cbn [writes]. cbv zeta.
  destruct (transform_on_handle e l chunk) as (Hev & Hg).
  destruct (status (_transform e l chunk)) as [[err|]| |]; try done.
  destruct (IH (self (_transform e l chunk)) (engine (_transform e l chunk)))
    as (Hev' & Hg').
  cbn [after events self]. rewrite Hg in *.
  split; [by apply Forall_app|done].
Qed.

(** Nothing follows a call that is the last of a trace and the only one
    of its kind. *)
Lemma close_is_last (evs before after : list event) (h0 h : option handle) :
  releases evs = 0%nat ->
  evs ++ [CallClose h0] = before ++ CallClose h :: after ->
  after = [].
Proof.
  revert before. induction evs as [|ev evs IH]; intros before Hr E.
  - destruct before as [|b [|b' before]]; by simplify_eq/=.
  - destruct before as [|b before]; cbn in E; injection E as E1 E2.
    + subst ev. unfold releases in Hr. by cbn in Hr.
    + apply (IH before); [|done].
      unfold releases in *. cbn in Hr. destruct ev; cbn in Hr; done.
Qed.

(** X5: one handle, and no use after close.  Every call a stream
    lifetime makes on the engine carries the handle the object had at the
    start, and a [lame_close] call, when there is one, is the last event of
    the lifetime: nothing is encoded, flushed or pushed after it. *)
Theorem one_handle_closed_last (e : Encoder) (l : L) (chunks : list Buffer) :
  Forall (on_handle (gfp e)) (events (lifetime e l chunks)) /\
  forall before h after,
    events (lifetime e l chunks) = before ++ CallClose h :: after ->
    after = [].
Proof.
  unfold lifetime.
  destruct (writes_on_handle e l chunks) as (Hev & Hg).
  destruct (writes_no_release e l chunks) as [Hr _].
  assert (forall before h after,
            events (writes e l chunks) = before ++ CallClose h :: after ->
            after = []) as Hnone.
  { intros before h after E. rewrite E, releases_app in Hr.
    unfold releases in Hr. cbn in Hr. lia. }
  destruct (status (writes e l chunks)) as [[err|]| |]; try done.
  cbn [after events].
  destruct (flush_cases (self (writes e l chunks))
              (engine (writes e l chunks)))
    as [(_ & -> & _)|(_ & -> & _)]; rewrite Hg.
  - split; [apply Forall_app; split; [done|repeat constructor]|].
    intros before h after E.
    assert (releases (events (writes e l chunks) ++ [CallInitParams (gfp e)])
            = 0%nat) as Hz by (by rewrite releases_app, Hr).
    rewrite E, releases_app in Hz. unfold releases in Hz. cbn in Hz. lia.
  - split.
    + apply Forall_app. split; [done|]. apply Forall_app.
      split; [|repeat constructor].
      rewrite <- Hg. apply on_handle_init_events.
    + intros before h after E.
      apply (close_is_last
               (events (writes e l chunks)
                  ++ init_events (self (writes e l chunks))
                  ++ [CallFlush (gfp e) (Z.to_nat 7200)])
               before after (gfp e) h).
      * by rewrite !releases_app, Hr, releases_init_events.
      * rewrite <- E, <- !app_assoc. done.
Qed.

Lemma pretty_Z_eq (n m : Z) : pretty n = pretty m -> n = m.
Proof. apply (inj pretty). Qed.

(** X7: the error table knows four codes.  The error a write hands to
    [done] for a negative encode result has a message exactly when the
    result is one of -1 to -4; for every other result [ERRORS] has no
    entry and the message is empty. *)
Theorem ERRORS_message_known (n : Z) :
  ERRORS_message n <> EmptyString <-> -4 <= n <= -1.
Proof.
  unfold ERRORS_message, ERRORS.
  destruct (decide (n = -1)) as [->|H1]; [by split; [lia|]|].
  destruct (decide (n = -2)) as [->|H2]; [by split; [lia|]|].
  destruct (decide (n = -3)) as [->|H3]; [by split; [lia|]|].
  destruct (decide (n = -4)) as [->|H4]; [by split; [lia|]|].
  rewrite lookup_insert_ne
    by (intros E; apply (pretty_Z_eq (-1) n) in E; lia).
  rewrite lookup_insert_ne
    by (intros E; apply (pretty_Z_eq (-2) n) in E; lia).
  rewrite lookup_insert_ne
    by (intros E; apply (pretty_Z_eq (-3) n) in E; lia).
  rewrite lookup_insert_ne
    by (intros E; apply (pretty_Z_eq (-4) n) in E; lia).
  rewrite lookup_empty.
  cbn. split; [done|lia].
Qed.

(** X14: what a write pushes is what the engine wrote.  With frames of
    a whole number of bytes, when the bulk encode call reports a positive
    byte count that is covered by the bytes it wrote, and these fit the
    output buffer, the write pushes one buffer: the first [bytesWritten]
    bytes the engine wrote, without the zero-filled rest of the output
    buffer. *)
Theorem pushed_is_engine_output (e : Encoder) (l : L) (chunk : Buffer)
    (ba : Z) :
  init_succeeds e l ->
  effective_blockAlign e = of_Z ba -> 0 < ba ->
  let total := remainder_bytes e ++ chunk in
  let n := Z.of_nat (length total) in
  let whole := take (Z.to_nat (n - n mod ba)) total in
  let reply := bulk e ba (engine_after_init e l) whole in
  let bytesWritten := reply.1.1 in
  let data := reply.1.2 in
  0 < bytesWritten <= Z.of_nat (length data) ->
  Z.of_nat (length data) <= 5 * (Z.of_nat (length whole) / ba) / 4 + 7200 ->
  pushed (events (_transform e l chunk)) = [take (Z.to_nat bytesWritten) data].
Proof.
  intros Hi Hba Hpos total n whole reply bytesWritten data Hbw Hfit.
  rewrite (transform_integral_bulk e l chunk ba Hi Hba Hpos). cbv zeta.
  fold total. fold n. fold whole. subst bytesWritten data reply.
  destruct (bulk e ba (engine_after_init e l) whole) as [[bw data] l'].
  cbn [fst snd] in *.
  set (size := Z.to_nat (5 * (Z.of_nat (length whole) / ba) / 4 + 7200)) in *.
  assert (length data <= size)%nat as Hle by lia.
  rewrite !events_after, !pushed_app, pushed_init_events.
  unfold report. destruct (Z.ltb_spec bw 0); [lia|].
  destruct (Z.ltb_spec 0 bw); [|lia].
  rewrite events_after. unfold pushed.
  cbn [done events app omap list_omap]. f_equal.
  rewrite slice_to by (rewrite length_written, length_replicate; lia).
  pose proof (written_prefix (replicate size Byte.x00) data) as Hp.
  rewrite length_replicate in Hp. specialize (Hp Hle).
  replace (take (Z.to_nat bw) data)
    with (take (Z.to_nat bw)
            (take (length data) (written (replicate size Byte.x00) data)))
    by (by rewrite Hp).
  rewrite take_take. f_equal. lia.
Qed.

Context {accessors : LameAccessors L}.

(** The accessor functions pass [this.gfp] on. *)
Lemma desc_handle (prop key : string) (e : Encoder) (l : L) (v : js_value) :
  (desc_get key e l).1.2 = gfp e /\ (desc_set prop key e l v).1.2 = gfp e.
Proof.
  unfold desc_get, desc_set.
  destruct (binding_get key l (gfp e)) as [got l1].
  destruct (binding_set key l (gfp e) v) as [r l2].
  by destruct (negb _).
Qed.

(** X13: the settings of a stream that was flushed are read and written
    through [null].  After a lifetime that reached the callback of the
    flush call, every getter and setter the loop defined calls its binding
    function with a null handle; after any other lifetime -- one that ended
    with an error of a write or of the initialisation, or with an exception
    of a write -- they still pass the handle the object started with. *)
Theorem accessors_after_lifetime
    (e : Encoder) (l l' : L) (chunks : list Buffer) (prop key : string)
    (v : js_value) :
  let r := lifetime e l chunks in
  let h := match status r with
           | Thrown (ReferenceError _) => None
           | _ => gfp e
           end in
  (desc_get key (self r) l').1.2 = h /\
  (desc_set prop key (self r) l' v).1.2 = h.
Proof.
  cbv zeta.
  destruct (desc_handle prop key (self (lifetime e l chunks)) l' v)
    as [-> ->].
  assert (gfp (self (lifetime e l chunks)) =
          match status (lifetime e l chunks) with
          | Thrown (ReferenceError _) => None
          | _ => gfp e
          end) as ->; [|done].
  unfold lifetime.
  destruct (writes_on_handle e l chunks) as (_ & Hg).
  destruct (writes_no_release e l chunks) as [_ Hs].
  destruct (status (writes e l chunks)) as [[err|]|[| |x]|] eqn:E;
    rewrite ?E; try done.
  - cbn [after status self].
    destruct (flush_cases (self (writes e l chunks))
                (engine (writes e l chunks)))
      as [(_ & _ & -> & ->)|(_ & _ & -> & ->)]; done.
  - by destruct (Hs x).
Qed.

End Facts.

#[local] Existing Instance scripted.

Lemma writes_conserve_bytes_witness :
  let chunks :=
    [[Byte.x01; Byte.x02; Byte.x03]; [Byte.x04; Byte.x05; Byte.x06]] in
  let r := writes stereo16 quiet chunks in
  concat (submitted (events r)) ++ remainder_bytes (self r)
    = remainder_bytes stereo16 ++ concat chunks.
Proof.
  exact (writes_conserve_bytes (binding := scripted) stereo16 quiet
           [[Byte.x01; Byte.x02; Byte.x03]; [Byte.x04; Byte.x05; Byte.x06]]
           ltac:(vm_compute; reflexivity)).
Defined.


Lemma pushed_is_engine_output_witness :
  pushed (events (_transform (binding := framer) stereo16 0%nat
                    (replicate 9 Byte.x01)))
    = [take (Z.to_nat 2) (replicate 2 Byte.x2a)].
Proof.
  exact (pushed_is_engine_output (binding := framer) stereo16 0%nat
           (replicate 9 Byte.x01) 4 (or_intror eq_refl) eq_refl eq_refl
           ltac:(vm_compute; split; [reflexivity|discriminate])
           ltac:(vm_compute; discriminate)).
Defined.

End EncoderTraces.

(** * Further properties of the Decoder stage *)

Module DecoderTraces.
Import Decoder Traces BufferFacts.

Section Facts.

Context {M : Type} {binding : Mpg123 M}.

Lemma trace_after (evs : list event) (r : result M) :
  events (after evs r) = evs ++ events r.
Proof. reflexivity. Qed.

Lemma status_after (evs : list event) (r : result M) :
  status (after evs r) = status r.
Proof. reflexivity. Qed.

Lemma length_slice_to (buf : Buffer) (n : Z) :
  0 <= n <= Z.of_nat (length buf) ->
  length (Buffer_slice buf 0 n) = Z.to_nat n.
Proof. intros Hn. rewrite slice_to by done. rewrite length_take. lia. Qed.

(** What [handleRead] adds to a trace is well formed when the loop it
    goes back to is. *)
Lemma handleRead_well_formed (k : M -> result M) (m : M) (out : Buffer)
    (ret bytes : Z) :
  (forall m, Forall (well_formed (length out)) (events (k m))) ->
  Forall (well_formed (length out)) (events (handleRead k m out ret bytes)).
Proof.
  intros Hk. unfold handleRead.
  assert (Forall (well_formed (length out))
            (events
               (if (ret =? MPG123_DONE) || (ret =? MPG123_NEED_MORE) then
                  done m None
                else if ret =? MPG123_NEW_FORMAT then
                  after [CallGetformat;
                         Emit "format" (OfFormat (mpg123_getformat m))] (k m)
                else if negb (MPG123_OK =? ret) then
                  done m (Some (Error ("mpg123_read() failed: " +:+ pretty ret)
                                  None))
                else k m))) as Hdispatch.
  { repeat case_match; rewrite ?trace_after; try apply Hk;
      try (by constructor).
    repeat (constructor; [done|]). apply Hk. }
  cbv zeta.
  destruct (Z.ltb_spec 0 bytes) as [Hpos|]; [|done].
  destruct (Z.leb_spec bytes (Z.of_nat (length out))) as [Hle|];
    [|by constructor].
  rewrite trace_after. constructor; [|done].
  split; [|done]. cbn. rewrite length_slice_to by lia. lia.
Qed.

Lemma read_well_formed (fuel : nat) (m : M) :
  Forall (well_formed safeBuffer) (events (read fuel m)).
Proof.
  revert m. induction fuel as [|fuel IH]; intros m; [by constructor|].
  cbn [read]. cbv zeta.
  destruct (mpg123_read m _) as [reply m1].
  rewrite trace_after, length_written, length_replicate.
  constructor; [done|].
  set (out := written _ _).
  assert (length out = safeBuffer) as Hout
    by (unfold out; by rewrite length_written, length_replicate).
  assert (forall m2,
            Forall (well_formed safeBuffer)
              (events (handleRead (read fuel) m2 out (rd_ret reply)
                         (rd_bytes reply)))) as Hh.
  { intros m2. rewrite <- Hout. apply handleRead_well_formed.
    by rewrite Hout. }
  destruct (new_id3_test _); [apply Hh|].
  destruct (mpg123_id3 m1) as [[ret2 id3] m2].
  rewrite trace_after. constructor; [done|].
  destruct (ret2 =? MPG123_OK); [|by constructor].
  rewrite trace_after. by constructor; [|apply Hh].
Qed.

Lemma transform_well_formed (fuel : nat) (m : M) (chunk : Buffer) :
  exists rest,
    events (_transform fuel m chunk) = CallFeed chunk :: rest /\
    Forall (well_formed safeBuffer) rest.
Proof.
  unfold _transform. destruct (mpg123_feed m chunk _) as [ret m1].
  rewrite trace_after. eexists. split; [done|].
  destruct (MPG123_OK =? ret); [apply read_well_formed|by constructor].
Qed.

(** X8: the chunk is fed once, and first.  The trace of a chunk starts
    with the one [mpg123_feed] call it contains, on the chunk as it came:
    no read precedes the feed and nothing is fed again while the read loop
    runs. *)
Theorem chunk_fed_once_and_first (fuel : nat) (m : M) (chunk : Buffer) :
  exists rest,
    events (_transform fuel m chunk) = CallFeed chunk :: rest /\
    Forall no_feed rest.
Proof.
  destruct (transform_well_formed fuel m chunk) as (rest & E & Hwf).
  exists rest. split; [done|].
  eapply Forall_impl; [exact Hwf|]. by intros ev (_ & H).
Qed.

(** X9: every read of a chunk is handed an output buffer of
    [safeBuffer] bytes, and every buffer pushed downstream is non-empty and
    at most [safeBuffer] bytes long, whatever byte counts the engine
    reports. *)
Theorem reads_and_pushes_bounded (fuel : nat) (m : M) (chunk : Buffer) :
  Forall (pcm_bounded safeBuffer) (events (_transform fuel m chunk)).
Proof.
  destruct (transform_well_formed fuel m chunk) as (rest & -> & Hwf).
  constructor; [done|].
  eapply Forall_impl; [exact Hwf|]. by intros ev (H & _).
Qed.

(** [handleRead] does not look at a loop that has ended. *)
Lemma handleRead_more_fuel (k k' : M -> result M) (m : M) (out : Buffer)
    (ret bytes : Z) :
  (forall m, status (k m) <> Pending -> k' m = k m) ->
  status (handleRead k m out ret bytes) <> Pending ->
  handleRead k' m out ret bytes = handleRead k m out ret bytes.
Proof.
  intros Hk. unfold handleRead. cbv zeta.
  repeat case_match; rewrite ?status_after; intros Hst;
    rewrite ?Hk by done; done.
Qed.

Lemma read_more_fuel (fuel more : nat) (m : M) :
  status (read fuel m) <> Pending ->
  read (fuel + more) m = read fuel m.
Proof.
  revert m. induction fuel as [|fuel IH]; intros m; [done|].
  cbn [read Nat.add]. cbv zeta.
  destruct (mpg123_read m _) as [reply m1].
  rewrite status_after.
  destruct (new_id3_test _).
  { intros Hst. f_equal. by apply handleRead_more_fuel. }
  destruct (mpg123_id3 m1) as [[ret2 id3] m2]. rewrite status_after.
  destruct (ret2 =? MPG123_OK); [|done].
  rewrite status_after. intros Hst. do 3 f_equal.
  by apply handleRead_more_fuel.
Qed.

(** X11: a chunk that has ended has ended.  Once the callbacks that
    fired brought [_transform] to [done] or to an exception, the trace, the
    outcome and the engine state are final: however many more callbacks
    the event loop would deliver, no further read is made for the chunk. *)
Theorem ended_chunk_is_final (fuel more : nat) (m : M) (chunk : Buffer) :
  status (_transform fuel m chunk) <> Pending ->
  _transform (fuel + more) m chunk = _transform fuel m chunk.
Proof.
  unfold _transform. destruct (mpg123_feed m chunk _) as [ret m1].
  rewrite status_after. destruct (MPG123_OK =? ret); [|done].
  intros Hst. f_equal. by apply read_more_fuel.
Qed.

Lemma read_calls_app (evs evs' : list event) :
  read_calls (evs ++ evs') = (read_calls evs + read_calls evs')%nat.
Proof. unfold read_calls. by rewrite omap_app, length_app. Qed.

(** X12: the read loop stops only when the engine says so.  With an
    engine that accepts every feed, answers every read with [MPG123_OK]
    and no more bytes than the buffer holds, and never fails a metadata
    call, a chunk never completes: after any number of callbacks
    [_transform] is still waiting, and has made one read for each. *)
Theorem read_loop_runs_while_OK (fuel : nat) (m : M) (chunk : Buffer) :
  MPG123_OK <> MPG123_DONE ->
  MPG123_OK <> MPG123_NEED_MORE ->
  MPG123_OK <> MPG123_NEW_FORMAT ->
  (forall m chunk size, (mpg123_feed m chunk size).1 = MPG123_OK) ->
  (forall m,
     rd_ret (mpg123_read m safeBuffer).1 = MPG123_OK /\
     rd_bytes (mpg123_read m safeBuffer).1 <= Z.of_nat safeBuffer) ->
  (forall m, (mpg123_id3 m).1.1 = MPG123_OK) ->
  status (_transform fuel m chunk) = Pending /\
  read_calls (events (_transform fuel m chunk)) = fuel.
Proof.
  intros Hdone Hmore Hformat Hfeed Hread Hid3.
  assert (forall fuel m,
            status (read fuel m) = Pending /\
            read_calls (events (read fuel m)) = fuel) as Hloop.
  { clear fuel m. induction fuel as [|fuel IH]; intros m; [done|].
    cbn [read]. cbv zeta.
    pose proof (Hread m) as [Hret Hbytes]. rewrite length_replicate.
    destruct (mpg123_read m _) as [reply m1]. cbn [fst] in Hret, Hbytes.
    rewrite status_after, trace_after, read_calls_app.
    set (out := written _ _).
    assert (length out = safeBuffer) as Hout
      by (unfold out; by rewrite length_written, length_replicate).
    assert (forall m2,
              status (handleRead (read fuel) m2 out (rd_ret reply)
                        (rd_bytes reply)) = Pending /\
              read_calls (events (handleRead (read fuel) m2 out
                                    (rd_ret reply) (rd_bytes reply)))
                = fuel) as Hh.
    { intros m2. unfold handleRead. cbv zeta. rewrite Hret.
      destruct (Z.eqb_spec MPG123_OK MPG123_DONE); [done|].
      destruct (Z.eqb_spec MPG123_OK MPG123_NEED_MORE); [done|].
      destruct (Z.eqb_spec MPG123_OK MPG123_NEW_FORMAT); [done|].
      rewrite Z.eqb_refl. cbn [orb negb].
      destruct (0 <? rd_bytes reply); [|apply IH].
      destruct (Z.leb_spec (rd_bytes reply) (Z.of_nat (length out)));
        [|lia].
      rewrite status_after, trace_after, read_calls_app. apply IH. }
    destruct (new_id3_test _).
    { destruct (Hh m1) as [-> ->]. done. }
    pose proof (Hid3 m1) as Hok.
    destruct (mpg123_id3 m1) as [[ret2 id3] m2]. cbn [fst] in Hok.
    rewrite Hok, Z.eqb_refl.
    rewrite !status_after, !trace_after, !read_calls_app.
    destruct (Hh m2) as [-> ->]. done. }
  unfold _transform. pose proof (Hfeed m chunk (length chunk)) as Hf.
  destruct (mpg123_feed m chunk _) as [ret m1]. cbn [fst] in Hf.
  rewrite Hf, Z.eqb_refl, status_after, trace_after, read_calls_app.
  destruct (Hloop fuel m1) as [-> ->]. done.
Qed.

End Facts.

#[local] Existing Instance small.

Lemma ended_chunk_is_final_witness :
  let m := replies [ReadReply (-10) 2 1 [Byte.x01; Byte.x02]] in
  _transform (binding := small) (1 + 7) m [Byte.x2a]
    = _transform (binding := small) 1 m [Byte.x2a].
Proof.
  exact (ended_chunk_is_final (binding := small) 1 7
           (replies [ReadReply (-10) 2 1 [Byte.x01; Byte.x02]]) [Byte.x2a]
           ltac:(vm_compute; discriminate)).
Defined.

Lemma read_loop_runs_while_OK_witness :
  status (_transform (binding := endless) 5 tt [Byte.x2a]) = Pending /\
  read_calls (events (_transform (binding := endless) 5 tt [Byte.x2a]))
    = 5%nat.
Proof.
  apply (read_loop_runs_while_OK (binding := endless) 5 tt [Byte.x2a]).
  - vm_compute; discriminate.
  - vm_compute; discriminate.
  - vm_compute; discriminate.
  - intros. reflexivity.
  - intros. split; [reflexivity|]. vm_compute. discriminate.
  - intros. reflexivity.
Defined.

End DecoderTraces.
